(** * ETSformer-pytorch: a shallow embedding over the real numbers

    The tensors of [etsformer_pytorch.py] are modelled as index functions
    with explicit dimensions, floating point numbers as real numbers, the
    transforms [torch.fft.rfft] / [torch.fft.irfft] by their defining sums,
    and every operation that can raise (shape mismatch, [topk] out of
    range, an empty transform) as a function into [option].  Where the
    rounding of single precision decides a statement (the sigmoid of the
    decay parameters), the operation is modelled a second time on binary32
    numbers, in module [F32]. *)

From Stdlib Require Import Reals Lra Lia List Bool Arith ZArith Psatz.
From Stdlib Require Import SpecFloat.
Import ListNotations.

Open Scope R_scope.

(** ** Finite sums over an index range *)

Fixpoint rsum (n : nat) (f : nat -> R) : R :=
  match n with
  | O => 0
  | S n' => rsum n' f + f n'
  end.

(** ** Complex numbers as pairs *)

Definition C : Type := (R * R)%type.

Definition Re (z : C) : R := fst z.
Definition Im (z : C) : R := snd z.
Definition C0 : C := (0, 0).
Definition Cadd (a b : C) : C := (Re a + Re b, Im a + Im b).
Definition Cmul (a b : C) : C :=
  (Re a * Re b - Im a * Im b, Re a * Im b + Im a * Re b).
Definition Cconj (a : C) : C := (Re a, - Im a).
Definition Cscale (r : R) (a : C) : C := (r * Re a, r * Im a).
Definition Cabs (a : C) : R := sqrt (Re a * Re a + Im a * Im a).

(** [cis t] is the point of the unit circle at angle [t]. *)
Definition cis (t : R) : C := (cos t, sin t).

Fixpoint csum (n : nat) (f : nat -> C) : C :=
  match n with
  | O => C0
  | S n' => Cadd (csum n' f) (f n')
  end.


(** ** Tensors with explicit dimensions

    A rank-3 tensor is its three dimensions and an index function; only
    the values at indices inside the dimensions are meaningful. *)

Record T3 : Type := mkT3 {
  d0 : nat;
  d1 : nat;
  d2 : nat;
  at3 : nat -> nat -> nat -> R
}.

(** Two tensors are equal when they have the same shape and agree at
    every index inside it. *)
Definition teq3 (t u : T3) : Prop :=
  d0 t = d0 u /\ d1 t = d1 u /\ d2 t = d2 u /\
  forall i j k, (i < d0 t)%nat -> (j < d1 t)%nat -> (k < d2 t)%nat ->
    at3 t i j k = at3 u i j k.

Definition shape_of (t : T3) : nat * nat * nat := (d0 t, d1 t, d2 t).


(** Raising an exception is [None]; the rest of the computation is skipped. *)
Definition bind {A B} (a : option A) (k : A -> option B) : option B :=
  match a with
  | Some x => k x
  | None => None
  end.

Notation "x <- a ;; k" := (bind a (fun x => k))
  (at level 61, a at next level, right associativity).

(** [exists(val)]: [val is not None]. *)
Definition exists_ {A} (val : option A) : bool :=
  match val with
  | Some _ => true
  | None => false
  end.

(** Broadcasting of one dimension: equal sizes, or one of them is 1. *)
Definition bdim (a b : nat) : option nat :=
  if (a =? b)%nat then Some a
  else if (a =? 1)%nat then Some b
  else if (b =? 1)%nat then Some a
  else None.

Definition bidx (a i : nat) : nat := if (a =? 1)%nat then O else i.

(** An elementwise binary operation with broadcasting ([z - y], [z + y]). *)
Definition bzip3 (op : R -> R -> R) (t u : T3) : option T3 :=
  a <- bdim (d0 t) (d0 u) ;;
  b <- bdim (d1 t) (d1 u) ;;
  c <- bdim (d2 t) (d2 u) ;;
  Some (mkT3 a b c (fun i j k =>
    op (at3 t (bidx (d0 t) i) (bidx (d1 t) j) (bidx (d2 t) k))
       (at3 u (bidx (d0 u) i) (bidx (d1 u) j) (bidx (d2 u) k)))).

(** [Rearrange('b n d -> b d n')] and its inverse. *)
Definition transpose12 (t : T3) : T3 :=
  mkT3 (d0 t) (d2 t) (d1 t) (fun b i j => at3 t b j i).

(** ** Elementary layers *)

Definition sigmoid (x : R) : R := 1 / (1 + exp (- x)).

(** The same function on single precision numbers, as [torch.sigmoid]
    evaluates it on a [float32] tensor: [1 / (1 + exp(-a))], every
    operation rounded to nearest (ties to even) in binary32 (24 bits of
    precision, exponents up to 128).  The exponential is modelled by its
    power series, summed exactly over the rationals and rounded once;
    library implementations agree with it up to a unit in the last place.
    For arguments beyond 256 in magnitude the result is the overflow or
    underflow value. *)
Module F32.
Definition prec : Z := 24.
Definition emax : Z := 128.
Definition t : Type := spec_float.

Definition of_Z (z : Z) : t := binary_normalize prec emax z 0 false.
Definition zero : t := S754_zero false.
Definition one : t := of_Z 1.
Definition add : t -> t -> t := SFadd prec emax.
Definition div : t -> t -> t := SFdiv prec emax.
Definition neg : t -> t := SFopp.


Definition is_finite (x : t) : bool :=
  match x with
  | S754_zero _ | S754_finite _ _ _ => true
  | _ => false
  end.

(** The quotient of two positive integers, rounded to nearest. *)
Definition of_ratio (a b : Z) : t :=
  match a, b with
  | Zpos a, Zpos b => div (S754_finite false a 0) (S754_finite false b 0)
  | _, _ => S754_nan
  end.

(** [1 + x/k * (1 + x/(k+1) * (1 + ...))] with [terms] nested factors, for
    [x = p / q], as a numerator and a denominator. *)
Fixpoint exp_tail (p q : Z) (terms : nat) (k : Z) : Z * Z :=
  match terms with
  | O => (1, 1)%Z
  | S terms' =>
      let '(a, b) := exp_tail p q terms' (k + 1)%Z in
      (q * k * b + p * a, q * k * b)%Z
  end.

Definition exp (x : t) : t :=
  match x with
  | S754_nan => S754_nan
  | S754_zero _ => one
  | S754_infinity s => if s then zero else S754_infinity false
  | S754_finite s m e =>
      let p := (if 0 <=? e then Zpos m * 2 ^ e else Zpos m)%Z in
      let q := (if 0 <=? e then 1 else 2 ^ (- e))%Z in
      let c := (p / q + 1)%Z in
      if (256 <? c)%Z then (if s then zero else S754_infinity false)
      else
        let '(a, b) := exp_tail p q (Z.to_nat (3 * c + 40)) 1 in
        if s then of_ratio b a else of_ratio a b
  end.

(** [1 / (1 + e)] for the value [e] the exponential returned. *)
Definition sigmoid_of_exp (e : t) : t := div one (add one e).

Definition sigmoid (a : t) : t := sigmoid_of_exp (exp (neg a)).


Definition eqb (x y : t) : bool :=
  match x, y with
  | S754_zero a, S754_zero b => Bool.eqb a b
  | S754_infinity a, S754_infinity b => Bool.eqb a b
  | S754_nan, S754_nan => true
  | S754_finite a m e, S754_finite b m' e' =>
      Bool.eqb a b && Pos.eqb m m' && Z.eqb e e'
  | _, _ => false
  end.
End F32.

(** [nn.Dropout(p)]: in training mode each entry is kept with probability
    [1 - p] and rescaled; [keep] is the Bernoulli draw of the call being
    modelled.  At [p = 0] and in evaluation mode it is the identity. *)
Module Dropout.
Record t : Type := mk {
  p : R;
  training : bool;
  keep : nat -> nat -> nat -> bool
}.

Definition forward (dr : t) (x : nat -> nat -> nat -> R)
  : nat -> nat -> nat -> R :=
  fun i j k =>
    if training dr then
      if Req_dec_T (p dr) 0 then x i j k
      else if keep dr i j k then x i j k / (1 - p dr) else 0
    else x i j k.

Definition inactive (dr : t) : Prop := training dr = false \/ p dr = 0.

Definition on (dr : t) (y : T3) : T3 :=
  mkT3 (d0 y) (d1 y) (d2 y) (forward dr (at3 y)).
End Dropout.

(** [nn.Linear(in_features, out_features)] acting on the last axis. *)
Module Linear.
Record t : Type := mk {
  in_features : nat;
  out_features : nat;
  weight : nat -> nat -> R;
  bias : nat -> R
}.

Definition forward (l : t) (x : T3) : option T3 :=
  if (d2 x =? in_features l)%nat then
    Some (mkT3 (d0 x) (d1 x) (out_features l) (fun b n o =>
      rsum (in_features l) (fun i => at3 x b n i * weight l o i) + bias l o))
  else None.
End Linear.

(** [nn.LayerNorm(dim)] over the last axis (biased variance). *)
Module LayerNorm.
Record t : Type := mk {
  normalized_shape : nat;
  weight : nat -> R;
  bias : nat -> R;
  eps : R
}.

Definition init (dim : nat) : t :=
  mk dim (fun _ => 1) (fun _ => 0) (1 / 100000).

Definition forward (ln : t) (x : T3) : option T3 :=
  if (d2 x =? normalized_shape ln)%nat then
    let d := d2 x in
    let mean := fun b n => rsum d (fun i => at3 x b n i) / INR d in
    let var := fun b n =>
      rsum d (fun i => (at3 x b n i - mean b n) * (at3 x b n i - mean b n))
      / INR d in
    Some (mkT3 (d0 x) (d1 x) d (fun b n i =>
      (at3 x b n i - mean b n) / sqrt (var b n + eps ln) * weight ln i
      + bias ln i))
  else None.
End LayerNorm.

(** [nn.Conv1d(in_channels, out_channels, kernel_size, padding)] on a
    [b x channels x time] tensor, zero padding on both sides.  The call
    raises when the channels of the input are not [in_channels], when the
    kernel has no entry (kernel size should be greater than zero), when
    the padded input is shorter than the kernel, and when the time axis is
    empty while batch and channels are not (only zero batch or zero
    channel inputs are supported). *)
Module Conv1d.
Record t : Type := mk {
  in_channels : nat;
  out_channels : nat;
  kernel_size : nat;
  padding : nat;
  weight : nat -> nat -> nat -> R;
  bias : nat -> R
}.

Definition forward (c : t) (x : T3) : option T3 :=
  let n := d2 x in
  if negb (d1 x =? in_channels c)%nat then None
  else if (kernel_size c =? 0)%nat then None
  else if (n + 2 * padding c <? kernel_size c)%nat then None
  else if ((n =? 0) && negb (d0 x =? 0) && negb (d1 x =? 0))%nat then None
  else
    let xpad := fun b ch i =>
      if ((padding c <=? i) && (i <? padding c + n))%nat
      then at3 x b ch (i - padding c) else 0 in
    Some (mkT3 (d0 x) (out_channels c)
      (n + 2 * padding c - kernel_size c + 1)
      (fun b o t =>
        bias c o +
        rsum (in_channels c) (fun ch =>
          rsum (kernel_size c) (fun j =>
            weight c o ch j * xpad b ch (t + j)%nat)))).
End Conv1d.

(** [InputEmbedding]: transpose, convolve, dropout, transpose back. *)
Module InputEmbedding.
Record t : Type := mk {
  conv : Conv1d.t;
  dropout : Dropout.t
}.

Definition init (time_features model_dim kernel_size : nat)
    (w : nat -> nat -> nat -> R) (b : nat -> R) (dropout : Dropout.t) : t :=
  mk (Conv1d.mk time_features model_dim kernel_size (kernel_size / 2) w b)
     dropout.

Definition forward (e : t) (x : T3) : option T3 :=
  y <- Conv1d.forward (conv e) (transpose12 x) ;;
  Some (transpose12 (Dropout.on (dropout e) y)).
End InputEmbedding.

(** [FeedForward]: Linear, Sigmoid, Dropout, Linear, Dropout. *)
Module FeedForward.
Record t : Type := mk {
  lin1 : Linear.t;
  drop1 : Dropout.t;
  lin2 : Linear.t;
  drop2 : Dropout.t
}.

Definition init (dim mult : nat)
    (w1 : nat -> nat -> R) (b1 : nat -> R)
    (w2 : nat -> nat -> R) (b2 : nat -> R) (dr1 dr2 : Dropout.t) : t :=
  mk (Linear.mk dim (dim * mult) w1 b1) dr1
     (Linear.mk (dim * mult) dim w2 b2) dr2.

Definition forward (f : t) (x : T3) : option T3 :=
  y <- Linear.forward (lin1 f) x ;;
  let y := mkT3 (d0 y) (d1 y) (d2 y) (fun b n i => sigmoid (at3 y b n i)) in
  let y := Dropout.on (drop1 f) y in
  y <- Linear.forward (lin2 f) y ;;
  Some (Dropout.on (drop2 f) y).
End FeedForward.

Module FeedForwardBlock.
Record t : Type := mk {
  norm : LayerNorm.t;
  ff : FeedForward.t
}.

Definition forward (f : t) (x : T3) : option T3 :=
  y <- FeedForward.forward (ff f) x ;;
  s <- bzip3 Rplus x y ;;
  LayerNorm.forward (norm f) s.
End FeedForwardBlock.

(** ** The real transforms

    [rfft N x L k]: bin [k] of the transform of length [L] of the signal [x]
    of length [N], zero padded or trimmed to [L] ([torch.fft.rfft(x, n = L)];
    the bins are [0 .. L / 2]). *)
Definition zero_pad (N : nat) (x : nat -> R) (a : nat) : R :=
  if (a <? N)%nat then x a else 0.

Definition rfft (N : nat) (x : nat -> R) (L : nat) (k : nat) : C :=
  csum L (fun a =>
    Cscale (zero_pad N x a) (cis (- (2 * PI * INR a * INR k / INR L)))).

(** [irfft m F n j]: sample [j] of the inverse transform of length [n] of
    the one-sided spectrum [F] with [m] bins, read as a Hermitian signal
    ([torch.fft.irfft(F, n)]): bins above [n / 2] are the conjugates of
    their mirror images, missing bins are zero, and only the real part of
    each term reaches the output. *)
Definition hermitian (m : nat) (F : nat -> C) (n : nat) (k : nat) : C :=
  let bin := fun i => if (i <? m)%nat then F i else C0 in
  if (2 * k <=? n)%nat then bin k else Cconj (bin (n - k)%nat).

Definition irfft (m : nat) (F : nat -> C) (n : nat) (j : nat) : R :=
  / INR n *
  rsum n (fun k =>
    Re (Cmul (hermitian m F n k) (cis (2 * PI * INR j * INR k / INR n)))).

(** [scipy.fftpack.next_fast_len]: the smallest number not below [target]
    whose only prime factors are 2, 3 and 5. *)
Fixpoint strip_factor (fuel p n : nat) : nat :=
  match fuel with
  | O => n
  | S fuel' =>
      if (n mod p =? 0)%nat then strip_factor fuel' p (n / p) else n
  end.

Definition is_fast_len (n : nat) : bool :=
  (strip_factor n 5 (strip_factor n 3 (strip_factor n 2 n)) =? 1)%nat.

Fixpoint search_fast_len (fuel m : nat) : nat :=
  if is_fast_len m then m
  else match fuel with
       | O => m
       | S fuel' => search_fast_len fuel' (S m)
       end.

Definition next_fast_len (target : nat) : nat :=
  if (target <=? 6)%nat then target else search_fast_len target target.

(** ** FFT-based causal convolution (Algorithm 3)

    [conv1d_fft N M x w] is [conv1d_fft(x, weights)] on one fibre of the
    convolution axis: [x] has [N] entries, the kernel [w] has [M].  A
    transform of length 0 raises, and so does [index_select] at a negative
    index. *)
Definition conv1d_fft (N M : nat) (x w : nat -> R) : option (nat -> R) :=
  let fast_len := next_fast_len (N + M - 1) in
  if (fast_len =? 0)%nat then None
  else if (fast_len <? N)%nat then None
  else
    let f_x := rfft N x fast_len in
    let f_weight := rfft M w fast_len in
    let f_v_weight := fun k => Cmul (f_x k) (Cconj (f_weight k)) in
    let out := irfft (fast_len / 2 + 1) f_v_weight fast_len in
    let out := fun j => out ((j + 1) mod fast_len)%nat in
    let indices := fun t => (fast_len - N + t)%nat in
    Some (fun t => out (indices t)).

Definition fibre (o : option (nat -> R)) (t : nat) : R :=
  match o with
  | Some out => out t
  | None => 0
  end.

(** [conv1d_fft] on a [b x n x d] tensor with a kernel of shape [(M,)]. *)
Definition conv1d_fft_bnd (x : T3) (M : nat) (w : nat -> R) : option T3 :=
  let N := d1 x in
  let fast_len := next_fast_len (N + M - 1) in
  if ((fast_len =? 0) || (fast_len <? N))%nat then None
  else Some (mkT3 (d0 x) N (d2 x) (fun b t d =>
         fibre (conv1d_fft N M (fun j => at3 x b j d) w) t)).

(** Circular cross-correlation of the padded signal with the padded
    kernel, at lag [j] on a circle of length [L]. *)
Definition circ_corr (L N M : nat) (x w : nat -> R) (j : nat) : R :=
  rsum L (fun a => zero_pad N x a * zero_pad M w ((a + L - j) mod L)%nat).

(** The direct causal convolution the specification compares with: at time
    [t] the kernel, reversed, is laid over the past of the signal, its last
    entry on [x t]. *)
Definition causal_conv_ref (N M : nat) (x w : nat -> R) (t : nat) : R :=
  rsum (S t) (fun s =>
    if (t - s <? M)%nat then w (M - 1 - (t - s))%nat * x s else 0).

(** ** Multi-head exponential smoothing attention *)

Definition T4 : Type := nat -> nat -> nat -> nat -> R.

(** [alpha * (1 - alpha) ** torch.flip(arange, dims = (0,))]: the powers
    are the entries of [arange(n)] in reverse order. *)
Definition arange (n : nat) : list nat := seq 0 n.

Definition flip_arange (n t : nat) : nat := nth t (rev (arange n)) O.

Definition decay_weights (alpha : R) (n : nat) (t : nat) : R :=
  alpha * (1 - alpha) ^ flip_arange n t.

(** The index tensor of the gather in [naive_Aes]:
    [(indices - rearrange(arange + 1, 't -> 1 t 1')) % n] at row [t],
    column [l]; [%] takes the sign of the divisor. *)
Definition gather_index (n t l : nat) : nat :=
  Z.to_nat ((Z.of_nat l - (Z.of_nat t + 1)) mod Z.of_nat n).

Module MHESA.
Record t : Type := mk {
  heads : nat;
  dim_head : nat;
  initial_state : nat -> nat -> R;
  dropout : Dropout.t;
  alpha : nat -> R;
  project_in : Linear.t;
  project_out : Linear.t
}.

Definition init (dim heads dim_head : nat) (dropout : Dropout.t)
    (initial_state : nat -> nat -> R) (alpha : nat -> R)
    (w_in : nat -> nat -> R) (b_in : nat -> R)
    (w_out : nat -> nat -> R) (b_out : nat -> R) : t :=
  let inner_dim := (heads * dim_head)%nat in
  mk heads dim_head initial_state dropout alpha
     (Linear.mk dim inner_dim w_in b_in)
     (Linear.mk inner_dim dim w_out b_out).

(** The weight matrix of Algorithm 2 after the gather, before dropout. *)
Definition gathered (n : nat) (weights : nat -> nat -> R)
  : nat -> nat -> nat -> R :=
  let weights := fun h (_ : nat) l => weights h l in
  fun h t l => weights h t (gather_index n t l).

(** [tril]: entries above the diagonal are zeroed. *)
Definition tril (w : nat -> nat -> nat -> R) : nat -> nat -> nat -> R :=
  fun h t l => if (l <=? t)%nat then w h t l else 0.

Definition naive_Aes (self : t) (n : nat) (x : T4)
    (weights : nat -> nat -> R) : T4 :=
  let weights := gathered n weights in
  let weights := Dropout.forward (dropout self) weights in
  let weights := tril weights in
  fun b h m d => rsum n (fun l => x b h l d * weights h m l).

(** The decay coefficient of head [h]: [self.alpha.sigmoid()]. *)
Definition decay (self : t) (h : nat) : R := sigmoid (alpha self h).

(** The smoothing kernel, of shape [heads x n]. *)
Definition weights (self : t) (n : nat) : nat -> nat -> R :=
  fun h t => decay_weights (decay self h) n t.

Definition forward (self : t) (x : T3) (naive : bool) : option T3 :=
  let b := d0 x in
  let n := d1 x in
  let h := heads self in
  let dh := dim_head self in
  x <- Linear.forward (project_in self) x ;;
  if negb (d2 x =? h * dh)%nat then None
  else
    (* split out heads *)
    let x : T4 := fun b h n d => at3 x b n (h * dh + d)%nat in
    (* temporal difference *)
    let xc : T4 := fun b h t d =>
      match t with
      | O => initial_state self h d
      | S t' => x b h t' d
      end in
    let x : T4 := fun b h t d => xc b h (S t) d - xc b h t d in
    (* prepare exponential alpha *)
    let weights := weights self n in
    output <-
      (if naive then Some (naive_Aes self n x weights)
       else
         let fast_len := next_fast_len (n + n - 1) in
         if ((fast_len =? 0) || (fast_len <? n))%nat then None
         else Some (fun b h t d =>
                fibre (conv1d_fft n n (fun j => x b h j d) (weights h)) t)) ;;
    (* initial state contribution *)
    let init_weight := fun h t => (1 - decay self h) ^ (t + 1) in
    let init_output := fun h t d => init_weight h t * initial_state self h d in
    let output : T4 := fun b h t d => output b h t d + init_output h t d in
    (* merge heads *)
    let output :=
      mkT3 b n (h * dh) (fun b n c => output b (c / dh)%nat n (c mod dh)%nat) in
    Linear.forward (project_out self) output.
End MHESA.

(** ** Frequency attention *)

(** [topk] along one fibre: the indices of the [k] largest entries, largest
    first.  Among equal entries the lowest index is taken first (the order
    of ties is left to the implementation by torch). *)
Fixpoint argmax (a : nat -> R) (best : nat) (cands : list nat) : nat :=
  match cands with
  | [] => best
  | i :: rest =>
      if Rlt_dec (a best) (a i) then argmax a i rest else argmax a best rest
  end.

Fixpoint topk (k : nat) (a : nat -> R) (cands : list nat) : list nat :=
  match k with
  | O => []
  | S k' =>
      match cands with
      | [] => []
      | c :: cs =>
          let m := argmax a c cs in
          m :: topk k' a (remove Nat.eq_dec m cands)
      end
  end.

(** [self.scatter(1, index, src)] along one fibre: entry [index[j]] of
    [self] is overwritten with [src[j]], for [j] from [pos] on. *)
Fixpoint scatter (index : list nat) (pos : nat) (src self : nat -> C)
  : nat -> C :=
  match index with
  | [] => self
  | i :: rest =>
      scatter rest (S pos) src
        (fun i' => if (i' =? i)%nat then src pos else self i')
  end.

Module FrequencyAttention.
Record t : Type := mk {
  K : nat;
  dropout : Dropout.t
}.

(** Number of bins of the one-sided spectrum of a signal of length [n],
    and the default output length of [irfft] on [m] bins. *)
Definition rfft_bins (n : nat) : nat := (n / 2 + 1)%nat.
Definition irfft_default_len (m : nat) : nat := (2 * (m - 1))%nat.

Definition forward (self : t) (x : T3) : option T3 :=
  let n := d1 x in
  if (n =? 0)%nat then None
  else
    let bins := rfft_bins n in
    let freqs := fun b k d => rfft n (fun j => at3 x b j d) n k in
    (* get amplitudes *)
    let amp := fun b k d => Cabs (freqs b k d) in
    let amp := Dropout.forward (dropout self) amp in
    (* topk amplitudes *)
    if (bins <? K self)%nat then None
    else
      let topk_amp_indices := fun b d =>
        topk (K self) (fun k => amp b k d) (seq 0 bins) in
      (* scatter back *)
      let topk_freqs := fun b d =>
        scatter (topk_amp_indices b d) 0 (fun j => freqs b j d)
                (fun _ => C0) in
      (* inverse fft *)
      let n_out := irfft_default_len bins in
      if (n_out =? 0)%nat then None
      else Some (mkT3 (d0 x) n_out (d2 x) (fun b j d =>
             irfft bins (topk_freqs b d) n_out j)).
End FrequencyAttention.

(** ** Level module *)

Module Level.
Record t : Type := mk {
  alpha : R;
  to_growth : Linear.t;
  to_seasonal : Linear.t
}.

Definition init (time_features model_dim : nat)
    (w_g : nat -> nat -> R) (b_g : nat -> R)
    (w_s : nat -> nat -> R) (b_s : nat -> R) : t :=
  mk 0 (Linear.mk model_dim time_features w_g b_g)
       (Linear.mk model_dim time_features w_s b_s).

Definition decay (self : t) : R := sigmoid (alpha self).

Definition forward (self : t) (x latent_growth latent_seasonal : T3)
  : option T3 :=
  let n := d1 x in
  let alpha := decay self in
  let powers := flip_arange n in
  (* Aes for the raw signal with the seasonal terms subtracted out *)
  seasonal <- Linear.forward (to_seasonal self) latent_seasonal ;;
  let Aes_weights := decay_weights alpha n in
  x_minus_seasonal <- bzip3 Rminus x seasonal ;;
  seasonal_normalized_term <- conv1d_fft_bnd x_minus_seasonal n Aes_weights ;;
  (* auxiliary term *)
  growth <- Linear.forward (to_growth self) latent_growth ;;
  let growth_smoothing_weights := fun t => (1 - alpha) ^ powers t in
  growth_term <- conv1d_fft_bnd x n Aes_weights ;;
  bzip3 Rplus seasonal_normalized_term growth_term.
End Level.

(** ** Decoder *)

Module LevelStack.
(** [repeat(x[:, -1], 'b d -> b n d', n = num_steps_forecast)]; indexing
    the last entry of an empty axis raises. *)
Definition forward (x : T3) (num_steps_forecast : nat) : option T3 :=
  if (d1 x =? 0)%nat then None
  else Some (mkT3 (d0 x) num_steps_forecast (d2 x)
               (fun b _ d => at3 x b (d1 x - 1)%nat d)).
End LevelStack.

(** ** The model *)

Module ETSFormer.
Record layer : Type := mkLayer {
  freq_attn : FrequencyAttention.t;
  mhes_attn : MHESA.t;
  attn_post_ln : LayerNorm.t;
  ff_block : option FeedForwardBlock.t;
  level : Level.t
}.

Record t : Type := mk {
  embed : InputEmbedding.t;
  encoder_layers : list layer
}.

(** The values [__init__] draws at random for one encoder layer, and the
    dropout draws of its modules. *)
Record layer_init : Type := mkLayerInit {
  fa_keep : nat -> nat -> nat -> bool;
  mh_keep : nat -> nat -> nat -> bool;
  mh_initial_state : nat -> nat -> R;
  mh_alpha : nat -> R;
  mh_w_in : nat -> nat -> R;
  mh_b_in : nat -> R;
  mh_w_out : nat -> nat -> R;
  mh_b_out : nat -> R;
  ff_w1 : nat -> nat -> R;
  ff_b1 : nat -> R;
  ff_w2 : nat -> nat -> R;
  ff_b2 : nat -> R;
  ff_keep1 : nat -> nat -> nat -> bool;
  ff_keep2 : nat -> nat -> nat -> bool;
  lv_w_g : nat -> nat -> R;
  lv_b_g : nat -> R;
  lv_w_s : nat -> nat -> R;
  lv_b_s : nat -> R
}.

Record model_init : Type := mkModelInit {
  training : bool;
  emb_w : nat -> nat -> nat -> R;
  emb_b : nat -> R;
  emb_keep : nat -> nat -> nat -> bool;
  layer_rand : nat -> layer_init
}.

(** [(ind - 1) == layers], on Python integers. *)
Definition is_last_layer (ind layers : nat) : bool :=
  (Z.of_nat ind - 1 =? Z.of_nat layers)%Z.

(** The module list appended for index [ind] of [range(layers)]. *)
Definition init_layer (time_features model_dim layers heads dim_head K : nat)
    (dropout : R) (mode : bool) (li : layer_init) (ind : nat) : layer :=
  let is_last_layer := is_last_layer ind layers in
  mkLayer
    (FrequencyAttention.mk K (Dropout.mk dropout mode (fa_keep li)))
    (MHESA.init model_dim heads dim_head
       (Dropout.mk dropout mode (mh_keep li))
       (mh_initial_state li) (mh_alpha li)
       (mh_w_in li) (mh_b_in li) (mh_w_out li) (mh_b_out li))
    (LayerNorm.init model_dim)
    (if negb is_last_layer
     then Some (FeedForwardBlock.mk (LayerNorm.init model_dim)
                  (FeedForward.init model_dim 4
                     (ff_w1 li) (ff_b1 li) (ff_w2 li) (ff_b2 li)
                     (Dropout.mk 0 mode (ff_keep1 li))
                     (Dropout.mk 0 mode (ff_keep2 li))))
     else None)
    (Level.init time_features model_dim
       (lv_w_g li) (lv_b_g li) (lv_w_s li) (lv_b_s li)).

Definition init (time_features model_dim embed_kernel_size layers
                 heads dim_head K : nat) (dropout : R) (r : model_init) : t :=
  let mode := training r in
  mk (InputEmbedding.init time_features model_dim embed_kernel_size
        (emb_w r) (emb_b r) (Dropout.mk dropout mode (emb_keep r)))
     (map (fun ind =>
             init_layer time_features model_dim layers heads dim_head K
               dropout mode (layer_rand r ind) ind)
          (seq 0 layers)).

(** One turn of the encoder loop on the pair [(x, z)]. *)
Definition layer_forward (l : layer) (xz : T3 * T3) : option (T3 * T3) :=
  let '(x, z) := xz in
  latent_seasonal <- FrequencyAttention.forward (freq_attn l) z ;;
  z <- bzip3 Rminus z latent_seasonal ;;
  latent_growth <- MHESA.forward (mhes_attn l) z false ;;
  z <- bzip3 Rminus z latent_growth ;;
  z <- LayerNorm.forward (attn_post_ln l) z ;;
  z <- (if exists_ (ff_block l)
        then match ff_block l with
             | Some ff => FeedForwardBlock.forward ff z
             | None => None
             end
        else Some z) ;;
  x <- Level.forward (level l) x latent_seasonal latent_growth ;;
  Some (x, z).

Fixpoint encoder (ls : list layer) (xz : T3 * T3) : option (T3 * T3) :=
  match ls with
  | [] => Some xz
  | l :: rest => xz' <- layer_forward l xz ;; encoder rest xz'
  end.

Definition forward (self : t) (x : T3) (num_steps_forecast : nat)
  : option T3 :=
  z <- InputEmbedding.forward (embed self) x ;;
  xz <- encoder (encoder_layers self) (x, z) ;;
  LevelStack.forward (fst xz) num_steps_forecast.

(** The shapes [__init__] gives the modules of a model, whatever the
    values of its parameters. *)
Definition linear_shaped (i o : nat) (l : Linear.t) : bool :=
  ((Linear.in_features l =? i) && (Linear.out_features l =? o))%nat.

Definition layer_shaped (time_features model_dim K : nat) (l : layer) : bool :=
  let m := mhes_attn l in
  let inner := (MHESA.heads m * MHESA.dim_head m)%nat in
  (FrequencyAttention.K (freq_attn l) =? K)%nat
  && linear_shaped model_dim inner (MHESA.project_in m)
  && linear_shaped inner model_dim (MHESA.project_out m)
  && (LayerNorm.normalized_shape (attn_post_ln l) =? model_dim)%nat
  && match ff_block l with
     | Some f =>
         let ff := FeedForwardBlock.ff f in
         (Linear.in_features (FeedForward.lin1 ff) =? model_dim)%nat
         && (Linear.out_features (FeedForward.lin1 ff)
             =? Linear.in_features (FeedForward.lin2 ff))%nat
         && (Linear.out_features (FeedForward.lin2 ff) =? model_dim)%nat
         && (LayerNorm.normalized_shape (FeedForwardBlock.norm f)
             =? model_dim)%nat
     | None => true
     end
  && linear_shaped model_dim time_features (Level.to_growth (level l))
  && linear_shaped model_dim time_features (Level.to_seasonal (level l)).

Definition shaped (time_features model_dim embed_kernel_size K : nat)
    (self : t) : bool :=
  let c := InputEmbedding.conv (embed self) in
  (Conv1d.in_channels c =? time_features)%nat
  && (Conv1d.out_channels c =? model_dim)%nat
  && (Conv1d.kernel_size c =? embed_kernel_size)%nat
  && (Conv1d.padding c =? embed_kernel_size / 2)%nat
  && forallb (layer_shaped time_features model_dim K) (encoder_layers self).
End ETSFormer.

(** ** Auxiliary definitions for the statements *)

(** The tensor [FrequencyAttention.forward] returns when nothing raises. *)
Definition fa_result (self : FrequencyAttention.t) (x : T3) : T3 :=
  let n := d1 x in
  let bins := FrequencyAttention.rfft_bins n in
  let freqs := fun b k d => rfft n (fun j => at3 x b j d) n k in
  let amp :=
    Dropout.forward (FrequencyAttention.dropout self)
      (fun b k d => Cabs (freqs b k d)) in
  mkT3 (d0 x) (FrequencyAttention.irfft_default_len bins) (d2 x)
    (fun b j d =>
       irfft bins
         (scatter
            (topk (FrequencyAttention.K self) (fun k => amp b k d) (seq 0 bins))
            0 (fun j => freqs b j d) (fun _ => C0))
         (FrequencyAttention.irfft_default_len bins) j).

(** The latent an encoder layer hands to its feed-forward block:
    [attn_post_ln(z - latent_seasonal - latent_growth)] with the two
    latents computed from [z] as in the loop of [ETSFormer.forward]. *)
Definition ff_input (l : ETSFormer.layer) (z : T3) : option T3 :=
  latent_seasonal <- FrequencyAttention.forward (ETSFormer.freq_attn l) z ;;
  z <- bzip3 Rminus z latent_seasonal ;;
  latent_growth <- MHESA.forward (ETSFormer.mhes_attn l) z false ;;
  z <- bzip3 Rminus z latent_growth ;;
  LayerNorm.forward (ETSFormer.attn_post_ln l) z.

(** The index map as the specification words it: the entry at row [t],
    column [s] is the kernel entry at [(t - s - 1) mod n]. *)
Definition spec_gather_index (n t s : nat) : nat :=
  Z.to_nat ((Z.of_nat t - Z.of_nat s - 1) mod Z.of_nat n).

(** ** Example inputs *)

Definition no_drop : nat -> nat -> nat -> bool := fun _ _ _ => true.
Definition eval_mode (p : R) : Dropout.t := Dropout.mk p false no_drop.

(** One head, one channel, identity projections, zero initial state,
    decay 1/2. *)
Definition mhesa_unit (dr : Dropout.t) : MHESA.t :=
  MHESA.init 1 1 1 dr (fun _ _ => 0) (fun _ => 0)
    (fun _ _ => 1) (fun _ => 0) (fun _ _ => 1) (fun _ => 0).



(** A signal [0, 1] and the kernel [1] of length one. *)
Definition step_signal (j : nat) : R := match j with O => 0 | S _ => 1 end.
Definition unit_kernel (j : nat) : R := 1.

(** The kernel [0, 1, 2, ...] on every head. *)
Definition ramp_kernel (h l : nat) : R := INR l.

(** Frequency attention keeping one bin, and the series [2, -1]. *)
Definition fa_top1 : FrequencyAttention.t := FrequencyAttention.mk 1 (eval_mode 0).
Definition x_two : T3 :=
  mkT3 1 2 1 (fun _ j _ => match j with O => 2 | S _ => -1 end).

(** A model with the default hyperparameters
    ([embed_kernel_size = 3], [layers = 2], [heads = 8], [dim_head = 32],
    [K = 4], [dropout = 0]) for one input channel and width 8, all
    parameters zero, in evaluation mode. *)
Definition zero_layer_init : ETSFormer.layer_init :=
  ETSFormer.mkLayerInit no_drop no_drop
    (fun _ _ => 0) (fun _ => 0) (fun _ _ => 0) (fun _ => 0)
    (fun _ _ => 0) (fun _ => 0) (fun _ _ => 0) (fun _ => 0)
    (fun _ _ => 0) (fun _ => 0) no_drop no_drop
    (fun _ _ => 0) (fun _ => 0) (fun _ _ => 0) (fun _ => 0).

Definition zero_init : ETSFormer.model_init :=
  ETSFormer.mkModelInit false (fun _ _ _ => 0) (fun _ => 0) no_drop
    (fun _ => zero_layer_init).

Definition default_model : ETSFormer.t :=
  ETSFormer.init 1 8 3 2 8 32 4 0 zero_init.

(** The same with [K = 2], as in the end-to-end test of the specification. *)
Definition small_model : ETSFormer.t :=
  ETSFormer.init 1 8 3 1 2 4 2 0 zero_init.

(** Its only encoder layer. *)
Definition small_layer : ETSFormer.layer :=
  ETSFormer.init_layer 1 8 1 2 4 2 0 false zero_layer_init 0.

Definition zeros (b n d : nat) : T3 := mkT3 b n d (fun _ _ _ => 0).

(** ** Recurrences and further examples *)

(** Exponential smoothing with coefficient [alpha], started at 0:
    [s 0 = alpha * x 0], [s (t+1) = (1 - alpha) * s t + alpha * x (t+1)]. *)
Fixpoint exp_smooth (alpha : R) (x : nat -> R) (t : nat) : R :=
  match t with
  | O => alpha * x O
  | S t' => (1 - alpha) * exp_smooth alpha x t' + alpha * x t
  end.


(** An encoder layer with its feed-forward block taken out. *)
Definition without_ff (l : ETSFormer.layer) : ETSFormer.layer :=
  ETSFormer.mkLayer (ETSFormer.freq_attn l) (ETSFormer.mhes_attn l)
    (ETSFormer.attn_post_ln l) None (ETSFormer.level l).

Definition ones (b n d : nat) : T3 := mkT3 b n d (fun _ _ _ => 1).

(** The small model with [layers = 0]. *)
Definition empty_model : ETSFormer.t :=
  ETSFormer.init 1 8 3 0 2 4 2 0 zero_init.

(** A level module for one channel with identity projections. *)
Definition level_unit : Level.t :=
  Level.init 1 1 (fun _ _ => 1) (fun _ => 0) (fun _ _ => 1) (fun _ => 0).

(** * Properties *)

(** ** Lemmas on sums *)

Lemma rsum_ext n f g :
  (forall k, (k < n)%nat -> f k = g k) -> rsum n f = rsum n g.
Proof.
  induction n as [|n IH]; intros H; simpl; auto.
  rewrite IH, H; auto.
Qed.

Lemma rsum_zero n f :
  (forall k, (k < n)%nat -> f k = 0) -> rsum n f = 0.
Proof.
  induction n as [|n IH]; intros H; simpl; auto.
  rewrite IH, H; auto; lra.
Qed.

Lemma rsum_plus n f g :
  rsum n (fun k => f k + g k) = rsum n f + rsum n g.
Proof. induction n as [|n IH]; simpl; [|rewrite IH]; lra. Qed.

Lemma rsum_scal n c f :
  rsum n (fun k => c * f k) = c * rsum n f.
Proof. induction n as [|n IH]; simpl; [|rewrite IH]; lra. Qed.

Lemma rsum_scal_r n c f :
  rsum n (fun k => f k * c) = rsum n f * c.
Proof. induction n as [|n IH]; simpl; [|rewrite IH]; lra. Qed.

Lemma rsum_opp n f :
  rsum n (fun k => - f k) = - rsum n f.
Proof. induction n as [|n IH]; simpl; [|rewrite IH]; lra. Qed.

Lemma rsum_const n c : rsum n (fun _ => c) = INR n * c.
Proof.
  induction n as [|n IH]; [simpl; lra|].
  rewrite S_INR. simpl rsum. rewrite IH. lra.
Qed.

Lemma rsum_swap n m (f : nat -> nat -> R) :
  rsum n (fun i => rsum m (fun j => f i j)) =
  rsum m (fun j => rsum n (fun i => f i j)).
Proof.
  induction n as [|n IH]; simpl.
  - symmetry. apply rsum_zero; auto.
  - rewrite IH, <- rsum_plus. reflexivity.
Qed.

(** A sum with a single non-zero term. *)
Lemma rsum_single n a f :
  (a < n)%nat ->
  (forall k, (k < n)%nat -> k <> a -> f k = 0) ->
  rsum n f = f a.
Proof.
  induction n as [|n IH]; intros Ha H; [lia|].
  simpl. destruct (Nat.eq_dec a n) as [->|Hne].
  - rewrite rsum_zero; [lra|]. intros k Hk. apply H; lia.
  - rewrite IH, (H n); try lia; [lra|]. intros k Hk Hka. apply H; lia.
Qed.

(** Restricting a sum to a prefix of its range. *)
Lemma rsum_prefix n m f :
  (m <= n)%nat ->
  (forall k, (m <= k < n)%nat -> f k = 0) ->
  rsum n f = rsum m f.
Proof.
  intros Hmn. induction n as [|n IH]; intros H.
  - assert (m = 0)%nat as -> by lia. reflexivity.
  - destruct (Nat.eq_dec m (S n)) as [->|Hne]; [reflexivity|].
    simpl. rewrite IH, (H n); try lia; [lra|]. intros k Hk. apply H; lia.
Qed.

Lemma Re_csum n f : Re (csum n f) = rsum n (fun k => Re (f k)).
Proof. induction n as [|n IH]; simpl; [|rewrite IH]; reflexivity. Qed.

Lemma Im_csum n f : Im (csum n f) = rsum n (fun k => Im (f k)).
Proof. induction n as [|n IH]; simpl; [|rewrite IH]; reflexivity. Qed.

Lemma rsum_mul n m f g :
  rsum n f * rsum m g = rsum n (fun a => rsum m (fun b => f a * g b)).
Proof.
  rewrite <- rsum_scal_r. apply rsum_ext; intros a _.
  now rewrite rsum_scal.
Qed.

(** ** Roots of unity *)

Lemma cos_2PI_Z (m : Z) : cos (2 * PI * IZR m) = 1.
Proof.
  replace (2 * PI * IZR m) with (2 * (IZR m * PI)) by ring.
  rewrite cos_2a_sin, (sin_eq_0_1 (IZR m * PI)) by (exists m; reflexivity).
  ring.
Qed.

Lemma sin_2PI_Z (m : Z) : sin (2 * PI * IZR m) = 0.
Proof.
  apply sin_eq_0_1. exists (2 * m)%Z. rewrite mult_IZR. ring.
Qed.

(** The geometric sum of the powers of [cis theta], in components. *)
Lemma geom_cis theta n :
  (1 - cos theta) * rsum n (fun k => cos (INR k * theta))
    + sin theta * rsum n (fun k => sin (INR k * theta)) = 1 - cos (INR n * theta)
  /\ (1 - cos theta) * rsum n (fun k => sin (INR k * theta))
    - sin theta * rsum n (fun k => cos (INR k * theta)) = - sin (INR n * theta).
Proof.
  induction n as [|n [IHc IHs]].
  - simpl. rewrite Rmult_0_l, cos_0, sin_0. split; ring.
  - rewrite S_INR. simpl rsum.
    replace ((INR n + 1) * theta) with (INR n * theta + theta) by ring.
    rewrite cos_plus, sin_plus. split; nra.
Qed.

Lemma cos_eq_1_div (L : nat) (m : Z) :
  (0 < L)%nat -> cos (2 * PI * IZR m / INR L) = 1 ->
  (m mod Z.of_nat L = 0)%Z.
Proof.
  intros HL Hc.
  assert (HLr : 0 < INR L) by (apply lt_0_INR; lia).
  replace (2 * PI * IZR m / INR L) with (2 * (PI * IZR m / INR L)) in Hc
    by (field; lra).
  rewrite cos_2a_sin in Hc.
  assert (Hs : sin (PI * IZR m / INR L) = 0) by nra.
  apply sin_eq_0_0 in Hs. destruct Hs as [k Hk].
  assert (Hm : IZR m = IZR (k * Z.of_nat L)).
  { rewrite mult_IZR, <- INR_IZR_INZ.
    assert (HP := PI_RGT_0).
    apply (Rmult_eq_reg_l PI); [|lra].
    apply (f_equal (fun r => r * INR L)) in Hk.
    replace (PI * IZR m / INR L * INR L) with (PI * IZR m) in Hk by (field; lra).
    lra. }
  apply eq_IZR in Hm. subst m. apply Z_mod_mult.
Qed.

(** Orthogonality of the characters of the cyclic group of order [L]. *)
Lemma unity_sum (L : nat) (m : Z) :
  (0 < L)%nat ->
  rsum L (fun k => cos (2 * PI * INR k * IZR m / INR L))
    = (if (m mod Z.of_nat L =? 0)%Z then INR L else 0)
  /\ rsum L (fun k => sin (2 * PI * INR k * IZR m / INR L)) = 0.
Proof.
  intros HL.
  assert (HLr : 0 < INR L) by (apply lt_0_INR; lia).
  set (theta := 2 * PI * IZR m / INR L).
  assert (Hc : rsum L (fun k => cos (2 * PI * INR k * IZR m / INR L))
               = rsum L (fun k => cos (INR k * theta))).
  { apply rsum_ext; intros k _. f_equal. unfold theta. field; lra. }
  assert (Hs : rsum L (fun k => sin (2 * PI * INR k * IZR m / INR L))
               = rsum L (fun k => sin (INR k * theta))).
  { apply rsum_ext; intros k _. f_equal. unfold theta. field; lra. }
  rewrite Hc, Hs. clear Hc Hs.
  destruct (Z.eqb_spec (m mod Z.of_nat L) 0) as [Hd|Hd].
  - apply Z.mod_divide in Hd; [|lia]. destruct Hd as [q ->].
    assert (Hth : forall k, INR k * theta = 2 * PI * IZR (Z.of_nat k * q)).
    { intros k. unfold theta.
      rewrite !mult_IZR, <- !INR_IZR_INZ. field; lra. }
    split.
    + rewrite (rsum_ext _ _ (fun _ => 1)).
      * rewrite rsum_const. ring.
      * intros k _. rewrite Hth. apply cos_2PI_Z.
    + apply rsum_zero. intros k _. rewrite Hth. apply sin_2PI_Z.
  - destruct (geom_cis theta L) as [Gc Gs].
    assert (Hth : INR L * theta = 2 * PI * IZR m)
      by (unfold theta; field; lra).
    rewrite Hth, cos_2PI_Z in Gc. rewrite Hth, sin_2PI_Z in Gs.
    assert (Hne : cos theta <> 1).
    { intros Hc. apply Hd. apply cos_eq_1_div; auto. }
    set (Sc := rsum L (fun k => cos (INR k * theta))) in *.
    set (Ss := rsum L (fun k => sin (INR k * theta))) in *.
    assert (Hpos : 0 < (1 - cos theta) * (1 - cos theta)
                       + sin theta * sin theta).
    { assert (0 < (1 - cos theta) * (1 - cos theta)) by nra. nra. }
    assert (E1 : ((1 - cos theta) * (1 - cos theta)
                  + sin theta * sin theta) * Sc = 0).
    { replace (_ * Sc) with
        ((1 - cos theta) * ((1 - cos theta) * Sc + sin theta * Ss)
         - sin theta * ((1 - cos theta) * Ss - sin theta * Sc)) by ring.
      rewrite Gc, Gs. ring. }
    assert (E2 : ((1 - cos theta) * (1 - cos theta)
                  + sin theta * sin theta) * Ss = 0).
    { replace (_ * Ss) with
        (sin theta * ((1 - cos theta) * Sc + sin theta * Ss)
         + (1 - cos theta) * ((1 - cos theta) * Ss - sin theta * Sc)) by ring.
      rewrite Gc, Gs. ring. }
    split.
    + apply Rmult_integral in E1. destruct E1; lra.
    + apply Rmult_integral in E2. destruct E2; lra.
Qed.

(** ** The transforms in components *)

Lemma rfft_Re N x L k :
  Re (rfft N x L k) =
  rsum L (fun a => zero_pad N x a * cos (2 * PI * INR a * INR k / INR L)).
Proof.
  unfold rfft. rewrite Re_csum. apply rsum_ext; intros a _.
  unfold Cscale, cis, Re; simpl. now rewrite cos_neg.
Qed.

Lemma rfft_Im N x L k :
  Im (rfft N x L k) =
  - rsum L (fun a => zero_pad N x a * sin (2 * PI * INR a * INR k / INR L)).
Proof.
  unfold rfft. rewrite Im_csum, <- rsum_opp. apply rsum_ext; intros a _.
  unfold Cscale, cis, Im; simpl. rewrite sin_neg. ring.
Qed.

Lemma C_eq (a b : C) : Re a = Re b -> Im a = Im b -> a = b.
Proof. destruct a, b; simpl; intros; subst; reflexivity. Qed.

Lemma cos_turns (a : nat) y : cos (2 * PI * INR a - y) = cos y.
Proof.
  rewrite cos_minus, INR_IZR_INZ, cos_2PI_Z, sin_2PI_Z. ring.
Qed.

Lemma sin_turns (a : nat) y : sin (2 * PI * INR a - y) = - sin y.
Proof.
  rewrite sin_minus, INR_IZR_INZ, cos_2PI_Z, sin_2PI_Z. ring.
Qed.

(** The transform of a real signal is Hermitian. *)
Lemma rfft_mirror N x L k :
  (0 < L)%nat -> (k <= L)%nat ->
  rfft N x L (L - k) = Cconj (rfft N x L k).
Proof.
  intros HL Hk.
  assert (HLr : 0 < INR L) by (apply lt_0_INR; lia).
  assert (Hang : forall a, 2 * PI * INR a * INR (L - k) / INR L
                 = 2 * PI * INR a - 2 * PI * INR a * INR k / INR L).
  { intros a. rewrite minus_INR by lia. field; lra. }
  apply C_eq.
  - unfold Cconj. simpl Re. rewrite !rfft_Re.
    apply rsum_ext; intros a _. now rewrite Hang, cos_turns.
  - unfold Cconj. simpl Im. rewrite !rfft_Im. f_equal.
    rewrite <- rsum_opp. apply rsum_ext; intros a _.
    rewrite Hang, sin_turns. ring.
Qed.

Lemma Cconj_mul a b : Cconj (Cmul a b) = Cmul (Cconj a) (Cconj b).
Proof. apply C_eq; unfold Cconj, Cmul; simpl; ring. Qed.

Lemma Cconj_invol a : Cconj (Cconj a) = a.
Proof. apply C_eq; unfold Cconj; simpl; ring. Qed.

(** The Hermitian extension of the product of two one-sided spectra of
    real signals is the product of their full spectra. *)
Lemma hermitian_product N M x w L k :
  (0 < L)%nat -> (k < L)%nat ->
  hermitian (L / 2 + 1)
    (fun i => Cmul (rfft N x L i) (Cconj (rfft M w L i))) L k
  = Cmul (rfft N x L k) (Cconj (rfft M w L k)).
Proof.
  intros HL Hk. unfold hermitian.
  assert (Hdiv : (2 * (L / 2) <= L)%nat)
    by (apply Nat.Div0.mul_div_le).
  assert (Hdiv' : (L < 2 * (L / 2) + 2)%nat).
  { pose proof (Nat.div_mod_eq L 2) as E.
    pose proof (Nat.mod_upper_bound L 2 ltac:(lia)). lia. }
  destruct (Nat.leb_spec (2 * k) L) as [H2|H2].
  - destruct (Nat.ltb_spec k (L / 2 + 1)) as [H3|H3]; [reflexivity|lia].
  - destruct (Nat.ltb_spec (L - k) (L / 2 + 1)) as [H3|H3]; [|lia].
    rewrite !rfft_mirror by lia.
    now rewrite !Cconj_mul, !Cconj_invol.
Qed.

Lemma rsum_lin4 n f1 f2 f3 f4 k1 k2 k3 k4 :
  rsum n (fun a => f1 a * k1 + f2 a * k2 + f3 a * k3 + f4 a * k4)
  = rsum n f1 * k1 + rsum n f2 * k2 + rsum n f3 * k3 + rsum n f4 * k4.
Proof. induction n as [|n IH]; simpl; [|rewrite IH]; ring. Qed.

(** One term of the inverse transform of the product, as a double sum. *)
Lemma corr_term N M x w L j k :
  (0 < L)%nat ->
  Re (Cmul (Cmul (rfft N x L k) (Cconj (rfft M w L k)))
           (cis (2 * PI * INR j * INR k / INR L)))
  = rsum L (fun a => rsum L (fun b =>
      zero_pad N x a * zero_pad M w b *
      cos (2 * PI * INR k
           * IZR (Z.of_nat j + Z.of_nat b - Z.of_nat a) / INR L))).
Proof.
  intros HL.
  assert (HLr : 0 < INR L) by (apply lt_0_INR; lia).
  set (phi := 2 * PI * INR j * INR k / INR L).
  set (A := fun a : nat => 2 * PI * INR a * INR k / INR L).
  set (xa := zero_pad N x). set (wb := zero_pad M w).
  transitivity
    (rsum L (fun a => rsum L (fun b =>
       (wb b * cos (A b)) * (xa a * cos (A a) * cos phi)
       + (wb b * sin (A b)) * (xa a * sin (A a) * cos phi)
       + (wb b * cos (A b)) * (xa a * sin (A a) * sin phi)
       + (wb b * sin (A b)) * (- (xa a * cos (A a) * sin phi))))).
  - erewrite (rsum_ext L (fun a => rsum L _)).
    2:{ intros a _. apply rsum_lin4. }
    cbv beta.
    set (Wc := rsum L (fun b => wb b * cos (A b))).
    set (Ws := rsum L (fun b => wb b * sin (A b))).
    transitivity (rsum L (fun a =>
        (xa a * cos (A a)) * (Wc * cos phi)
        + (xa a * sin (A a)) * (Ws * cos phi)
        + (xa a * sin (A a)) * (Wc * sin phi)
        + (xa a * cos (A a)) * (- (Ws * sin phi)))).
    + rewrite rsum_lin4.
      set (Xc := rsum L (fun a => xa a * cos (A a))).
      set (Xs := rsum L (fun a => xa a * sin (A a))).
      assert (E1 : Re (rfft N x L k) = Xc) by apply rfft_Re.
      assert (E2 : Im (rfft N x L k) = - Xs) by apply rfft_Im.
      assert (E3 : Re (rfft M w L k) = Wc) by apply rfft_Re.
      assert (E4 : Im (rfft M w L k) = - Ws) by apply rfft_Im.
      destruct (rfft N x L k) as [xr xi], (rfft M w L k) as [wr wi].
      unfold Cmul, Cconj, cis, Re, Im in *. simpl in *. subst. ring.
    + apply rsum_ext; intros a _. ring.
  - apply rsum_ext; intros a _. apply rsum_ext; intros b _.
    replace (2 * PI * INR k
             * IZR (Z.of_nat j + Z.of_nat b - Z.of_nat a) / INR L)
      with (phi - (A a - A b)).
    + rewrite cos_minus, cos_minus, sin_minus. ring.
    + unfold phi, A.
      rewrite minus_IZR, plus_IZR, <- !INR_IZR_INZ. field; lra.
Qed.

(** The inverse transform of the product is a double sum over the pairs
    of indices whose difference is the lag, modulo [L]. *)
Lemma irfft_product N M x w L j :
  (0 < L)%nat ->
  irfft (L / 2 + 1)
    (fun k => Cmul (rfft N x L k) (Cconj (rfft M w L k))) L j
  = rsum L (fun a => rsum L (fun b =>
      zero_pad N x a * zero_pad M w b *
      (if ((Z.of_nat j + Z.of_nat b - Z.of_nat a) mod Z.of_nat L =? 0)%Z
       then 1 else 0))).
Proof.
  intros HL.
  assert (HLr : 0 < INR L) by (apply lt_0_INR; lia).
  unfold irfft.
  rewrite (rsum_ext L _ (fun k => rsum L (fun a => rsum L (fun b =>
      zero_pad N x a * zero_pad M w b *
      cos (2 * PI * INR k
           * IZR (Z.of_nat j + Z.of_nat b - Z.of_nat a) / INR L))))).
  2:{ intros k Hk. rewrite hermitian_product by assumption.
      now apply corr_term. }
  rewrite rsum_swap, <- rsum_scal. apply rsum_ext; intros a _.
  rewrite rsum_swap, <- rsum_scal. apply rsum_ext; intros b _.
  rewrite rsum_scal.
  destruct (unity_sum L (Z.of_nat j + Z.of_nat b - Z.of_nat a) HL) as [Hc _].
  rewrite Hc.
  destruct (_ =? 0)%Z; field; lra.
Qed.

(** On a circle of length [L] exactly one kernel index meets each signal
    index at a given lag. *)
Lemma lag_index L j a b :
  (j < L)%nat -> (a < L)%nat -> (b < L)%nat ->
  ((Z.of_nat j + Z.of_nat b - Z.of_nat a) mod Z.of_nat L = 0)%Z
  <-> b = ((a + L - j) mod L)%nat.
Proof.
  intros Hj Ha Hb. split.
  - intros H. apply Z.mod_divide in H; [|lia]. destruct H as [q Hq].
    apply Nat2Z.inj. rewrite Nat2Z.inj_mod, Nat2Z.inj_sub, Nat2Z.inj_add by lia.
    apply Z.mod_unique_pos with (q := (1 - q)%Z); lia.
  - intros ->. 
    rewrite Nat2Z.inj_mod, Nat2Z.inj_sub, Nat2Z.inj_add by lia.
    set (Lz := Z.of_nat L). set (az := Z.of_nat a). set (jz := Z.of_nat j).
    replace (jz + (az + Lz - jz) mod Lz - az)%Z
      with ((az + Lz - jz) mod Lz - (az + Lz - jz) + 1 * Lz)%Z by ring.
    rewrite Z.mod_add by lia.
    rewrite Zminus_mod, Z.mod_mod, Z.sub_diag by lia. reflexivity.
Qed.

Lemma irfft_product_circ N M x w L j :
  (0 < L)%nat -> (j < L)%nat ->
  irfft (L / 2 + 1)
    (fun k => Cmul (rfft N x L k) (Cconj (rfft M w L k))) L j
  = circ_corr L N M x w j.
Proof.
  intros HL Hj. rewrite irfft_product by assumption.
  unfold circ_corr. apply rsum_ext; intros a Ha.
  assert (Hb0 : ((a + L - j) mod L < L)%nat)
    by (apply Nat.mod_upper_bound; lia).
  rewrite (rsum_single L ((a + L - j) mod L)%nat); auto.
  - destruct (Z.eqb_spec ((Z.of_nat j + Z.of_nat ((a + L - j) mod L)
                           - Z.of_nat a) mod Z.of_nat L) 0) as [_|Hne].
    + ring.
    + exfalso. apply Hne. apply lag_index; auto.
  - intros b Hb Hne.
    destruct (Z.eqb_spec ((Z.of_nat j + Z.of_nat b - Z.of_nat a)
                          mod Z.of_nat L) 0) as [He|_]; [|ring].
    exfalso. apply Hne. apply lag_index in He; auto.
Qed.

(** ** Transform lengths *)

Example next_fast_len_small :
  map next_fast_len [1; 3; 7; 11; 13; 17; 31]%nat = [1; 3; 8; 12; 15; 18; 32]%nat.
Proof. vm_compute. reflexivity. Qed.

(** ** [conv1d_fft] is a circular cross-correlation *)

Lemma search_fast_len_ge fuel m : (m <= search_fast_len fuel m)%nat.
Proof.
  revert m. induction fuel as [|fuel IH]; intros m; simpl.
  - destruct (is_fast_len m); lia.
  - destruct (is_fast_len m); [lia|]. specialize (IH (S m)). lia.
Qed.

Lemma next_fast_len_ge target : (target <= next_fast_len target)%nat.
Proof.
  unfold next_fast_len. destruct (target <=? 6)%nat; [lia|].
  apply search_fast_len_ge.
Qed.

Lemma conv1d_fft_circ N M x w :
  let L := next_fast_len (N + M - 1) in
  (0 < L)%nat -> (N <= L)%nat ->
  exists out,
    conv1d_fft N M x w = Some out /\
    forall t, out t = circ_corr L N M x w ((L - N + t + 1) mod L)%nat.
Proof.
  intros L HL HN. unfold conv1d_fft. fold L.
  destruct (Nat.eqb_spec L 0) as [|_]; [lia|].
  destruct (Nat.ltb_spec L N) as [|_]; [lia|].
  eexists; split; [reflexivity|]. intros t. cbv beta.
  apply irfft_product_circ; [assumption|].
  apply Nat.mod_upper_bound; lia.
Qed.

(** With a kernel as long as the signal, the circular correlation read at
    the selected indices is the causal convolution. *)
Lemma circ_corr_causal N L x w t :
  (t < N)%nat -> (2 * N - 1 <= L)%nat ->
  circ_corr L N N x w ((L - N + t + 1) mod L)%nat
  = causal_conv_ref N N x w t.
Proof.
  intros Ht HL. unfold circ_corr, causal_conv_ref.
  set (j := ((L - N + t + 1) mod L)%nat).
  assert (Hidx : forall a, (a < N)%nat ->
            ((a + L - j) mod L = a + N - 1 - t)%nat).
  { intros a Ha. unfold j.
    destruct (Nat.eq_dec t (N - 1)) as [->|Hne].
    - replace (L - N + (N - 1) + 1)%nat with L by lia.
      rewrite Nat.Div0.mod_same, Nat.sub_0_r.
      replace (a + L)%nat with (a + 1 * L)%nat by lia.
      rewrite Nat.Div0.mod_add, Nat.mod_small by lia. lia.
    - rewrite (Nat.mod_small (L - N + t + 1)) by lia.
      rewrite Nat.mod_small by lia. lia. }
  rewrite (rsum_prefix L (S t)).
  - apply rsum_ext; intros a Ha.
    rewrite Hidx by lia. unfold zero_pad.
    destruct (Nat.ltb_spec a N) as [_|]; [|lia].
    destruct (Nat.ltb_spec (a + N - 1 - t) N) as [_|]; [|lia].
    destruct (Nat.ltb_spec (t - a) N) as [_|]; [|lia].
    replace (N - 1 - (t - a))%nat with (a + N - 1 - t)%nat by lia. ring.
  - lia.
  - intros a Ha. unfold zero_pad at 1.
    destruct (Nat.ltb_spec a N) as [HaN|]; [|ring].
    rewrite Hidx by lia. unfold zero_pad.
    destruct (Nat.ltb_spec (a + N - 1 - t) N) as [|_]; [lia|ring].
Qed.

Lemma conv1d_fft_causal N x w :
  (1 <= N)%nat ->
  exists out,
    conv1d_fft N N x w = Some out /\
    forall t, (t < N)%nat -> out t = causal_conv_ref N N x w t.
Proof.
  intros HN.
  pose proof (next_fast_len_ge (N + N - 1)) as HL.
  destruct (conv1d_fft_circ N N x w) as [out [E Hout]]; try lia.
  exists out. split; [exact E|]. intros t Ht.
  rewrite Hout. apply circ_corr_causal; lia.
Qed.

(** ** The naive path of MHESA *)

Lemma dropout_inactive dr x i j k :
  Dropout.inactive dr -> Dropout.forward dr x i j k = x i j k.
Proof.
  intros [H|H]; unfold Dropout.forward; rewrite H; [reflexivity|].
  destruct (Dropout.training dr); [|reflexivity].
  destruct (Req_dec_T 0 0) as [_|Hne]; [reflexivity|congruence].
Qed.

Lemma gather_index_causal n t l :
  (l <= t)%nat -> (t < n)%nat -> gather_index n t l = (n - 1 - (t - l))%nat.
Proof.
  intros Hl Ht. unfold gather_index.
  replace (Z.of_nat l - (Z.of_nat t + 1))%Z
    with (Z.of_nat (n - 1 - (t - l)) + (-1) * Z.of_nat n)%Z by lia.
  rewrite Z.mod_add, Z.mod_small by lia. apply Nat2Z.id.
Qed.


Lemma teq3_refl t : teq3 t t.
Proof. unfold teq3; auto. Qed.


Lemma fibre_conv1d_fft_causal N x w t :
  (1 <= N)%nat -> (t < N)%nat ->
  fibre (conv1d_fft N N x w) t = causal_conv_ref N N x w t.
Proof.
  intros HN Ht. destruct (conv1d_fft_causal N x w HN) as [out [-> Hout]].
  simpl. now apply Hout.
Qed.


(** ** Frequency attention: when it returns, and what *)

Lemma irfft_default_len_bins n :
  FrequencyAttention.irfft_default_len (FrequencyAttention.rfft_bins n) = (2 * (n / 2))%nat.
Proof. unfold FrequencyAttention.irfft_default_len, FrequencyAttention.rfft_bins. lia. Qed.

Lemma fa_forward_some self x :
  (2 <= d1 x)%nat ->
  (FrequencyAttention.K self <= FrequencyAttention.rfft_bins (d1 x))%nat ->
  FrequencyAttention.forward self x = Some (fa_result self x).
Proof.
  intros Hn HK. unfold FrequencyAttention.forward.
  destruct (Nat.eqb_spec (d1 x) 0) as [|_]; [lia|].
  destruct (Nat.ltb_spec (FrequencyAttention.rfft_bins (d1 x)) (FrequencyAttention.K self)) as [|_]; [lia|].
  destruct (Nat.eqb_spec (FrequencyAttention.irfft_default_len (FrequencyAttention.rfft_bins (d1 x))) 0) as [E|_].
  - rewrite irfft_default_len_bins in E.
    pose proof (Nat.div_mod_eq (d1 x) 2). pose proof (Nat.mod_upper_bound (d1 x) 2). lia.
  - reflexivity.
Qed.

Lemma fa_result_shape self x :
  shape_of (fa_result self x) = (d0 x, (2 * (d1 x / 2))%nat, d2 x).
Proof.
  unfold shape_of, fa_result. cbn [d0 d1 d2].
  now rewrite irfft_default_len_bins.
Qed.

Lemma even_half n : Nat.even n = true -> (2 * (n / 2) = n)%nat.
Proof.
  intros He. apply Nat.even_spec in He. destruct He as [m ->].
  rewrite (Nat.mul_comm 2 m), Nat.div_mul by lia. lia.
Qed.

(** ** Transforms of length two *)

Lemma rfft_len2 x k :
  (k < 2)%nat ->
  rfft 2 x 2 k = (x 0%nat + (if (k =? 0)%nat then 1 else -1) * x 1%nat, 0).
Proof.
  intros Hk. apply C_eq.
  - rewrite rfft_Re. simpl rsum. unfold zero_pad. simpl.
    destruct k as [|[|k]]; [| |lia]; simpl.
    + replace (2 * PI * 0 * 0 / (1 + 1)) with 0 by field.
      replace (2 * PI * 1 * 0 / (1 + 1)) with 0 by field.
      rewrite cos_0. ring.
    + replace (2 * PI * 0 * 1 / (1 + 1)) with 0 by field.
      replace (2 * PI * 1 * 1 / (1 + 1)) with PI by field.
      rewrite cos_0, cos_PI. ring.
  - rewrite rfft_Im. simpl rsum. unfold zero_pad. simpl.
    destruct k as [|[|k]]; [| |lia]; simpl.
    + replace (2 * PI * 0 * 0 / (1 + 1)) with 0 by field.
      replace (2 * PI * 1 * 0 / (1 + 1)) with 0 by field.
      rewrite sin_0. ring.
    + replace (2 * PI * 0 * 1 / (1 + 1)) with 0 by field.
      replace (2 * PI * 1 * 1 / (1 + 1)) with PI by field.
      rewrite sin_0, sin_PI. ring.
Qed.

Lemma irfft_len2 F j :
  (j < 2)%nat ->
  irfft 2 F 2 j = (Re (F 0%nat) + (if (j =? 0)%nat then 1 else -1) * Re (F 1%nat)) / 2.
Proof.
  intros Hj. unfold irfft. simpl rsum. unfold hermitian. simpl.
  unfold Cmul, cis, Re, Im. simpl.
  destruct j as [|[|j]]; [| |lia]; simpl.
  - replace (2 * PI * 0 * 0 / (1 + 1)) with 0 by field.
    replace (2 * PI * 0 * 1 / (1 + 1)) with 0 by field.
    rewrite cos_0, sin_0. field.
  - replace (2 * PI * 1 * 0 / (1 + 1)) with 0 by field.
    replace (2 * PI * 1 * 1 / (1 + 1)) with PI by field.
    rewrite cos_0, sin_0, cos_PI, sin_PI. field.
Qed.

Lemma Cabs_real r : 0 <= r -> Cabs (r, 0) = r.
Proof.
  intros Hr. unfold Cabs, Re, Im; simpl.
  replace (r * r + 0 * 0) with (r * r) by ring. now apply sqrt_square.
Qed.

(** Frequency attention with [K = 1] on a signal of length 2 whose second
    bin dominates: the first bin is written at the place of the second. *)
Lemma fa_len2_top1 dr x b d j :
  Dropout.inactive dr -> d1 x = 2%nat ->
  0 <= at3 x b 0%nat d + at3 x b 1%nat d ->
  at3 x b 0%nat d + at3 x b 1%nat d < at3 x b 0%nat d - at3 x b 1%nat d ->
  (j < 2)%nat ->
  at3 (fa_result (FrequencyAttention.mk 1 dr) x) b j d
  = (if (j =? 0)%nat then 1 else -1) * (at3 x b 0%nat d + at3 x b 1%nat d) / 2.
Proof.
  intros Hdr Hn H0 Hlt Hj. unfold fa_result.
  cbn [d0 d1 d2 at3 FrequencyAttention.K FrequencyAttention.dropout].
  rewrite Hn.
  change (FrequencyAttention.rfft_bins 2) with 2%nat.
  change (FrequencyAttention.irfft_default_len 2) with 2%nat.
  rewrite irfft_len2 by assumption.
  cbn [seq topk argmax].
  rewrite !dropout_inactive by assumption.
  rewrite !rfft_len2 by lia. cbn [Nat.eqb].
  rewrite !Cabs_real by lra.
  destruct (Rlt_dec _ _) as [_|Hn']; [|lra].
  cbn [scatter Nat.eqb].
  unfold C0, Re. cbn [fst]. 
  rewrite rfft_len2 by lia. cbn [Nat.eqb fst].
  destruct j as [|[|j]]; [| |lia]; cbn [Nat.eqb]; field.
Qed.

(** ** Shapes through the layers *)

Lemma bdim_same a : bdim a a = Some a.
Proof. unfold bdim. now rewrite Nat.eqb_refl. Qed.

Lemma bzip3_shape op t u s :
  shape_of t = s -> shape_of u = s ->
  exists y, bzip3 op t u = Some y /\ shape_of y = s.
Proof.
  unfold shape_of. intros <- E. injection E as E0 E1 E2.
  unfold bzip3. rewrite E0, E1, E2, !bdim_same. simpl.
  eexists; split; reflexivity.
Qed.

Lemma Linear_forward_shape l x b n :
  shape_of x = (b, n, Linear.in_features l) ->
  exists y, Linear.forward l x = Some y
            /\ shape_of y = (b, n, Linear.out_features l).
Proof.
  unfold shape_of. intros E. injection E as E0 E1 E2.
  unfold Linear.forward. rewrite E2, Nat.eqb_refl.
  eexists; split; [reflexivity|]. simpl. now rewrite E0, E1.
Qed.

Lemma LayerNorm_forward_shape ln x b n :
  shape_of x = (b, n, LayerNorm.normalized_shape ln) ->
  exists y, LayerNorm.forward ln x = Some y
            /\ shape_of y = (b, n, LayerNorm.normalized_shape ln).
Proof.
  unfold shape_of. intros E. injection E as E0 E1 E2.
  unfold LayerNorm.forward. rewrite E2, Nat.eqb_refl.
  eexists; split; [reflexivity|]. simpl. now rewrite E0, E1.
Qed.



Lemma FeedForwardBlock_forward_shape f x b n d :
  let ff := FeedForwardBlock.ff f in
  shape_of x = (b, n, d) ->
  Linear.in_features (FeedForward.lin1 ff) = d ->
  Linear.out_features (FeedForward.lin1 ff)
    = Linear.in_features (FeedForward.lin2 ff) ->
  Linear.out_features (FeedForward.lin2 ff) = d ->
  LayerNorm.normalized_shape (FeedForwardBlock.norm f) = d ->
  exists y, FeedForwardBlock.forward f x = Some y /\ shape_of y = (b, n, d).
Proof.
  intros ff Hx H1 H12 H2 Hn.
  unfold FeedForwardBlock.forward, FeedForward.forward. fold ff.
  destruct (Linear_forward_shape (FeedForward.lin1 ff) x b n) as (y1 & -> & S1).
  { now rewrite H1. }
  cbn [bind].
  destruct (Linear_forward_shape (FeedForward.lin2 ff)
    (Dropout.on (FeedForward.drop1 ff)
       (mkT3 (d0 y1) (d1 y1) (d2 y1) (fun b n i => sigmoid (at3 y1 b n i))))
    b n) as (y2 & -> & S2).
  { unfold shape_of in *. cbn [Dropout.on d0 d1 d2]. now rewrite <- H12. }
  cbn [bind].
  destruct (bzip3_shape Rplus x (Dropout.on (FeedForward.drop2 ff) y2) (b, n, d))
    as (s & -> & Ss); auto.
  { unfold shape_of in *. cbn [Dropout.on d0 d1 d2]. now rewrite <- H2. }
  cbn [bind]. rewrite <- Hn. apply LayerNorm_forward_shape. now rewrite Hn.
Qed.

Lemma FrequencyAttention_forward_shape self x b n d :
  shape_of x = (b, n, d) -> (2 <= n)%nat -> Nat.even n = true ->
  (FrequencyAttention.K self <= n / 2 + 1)%nat ->
  exists y, FrequencyAttention.forward self x = Some y
            /\ shape_of y = (b, n, d).
Proof.
  unfold shape_of at 1. intros E Hn He HK. injection E as E0 E1 E2.
  exists (fa_result self x). split.
  - apply fa_forward_some; rewrite E1; auto.
  - rewrite fa_result_shape, E0, E1, E2, even_half by assumption. reflexivity.
Qed.

Lemma MHESA_forward_shape self x b n naive :
  let inner := (MHESA.heads self * MHESA.dim_head self)%nat in
  shape_of x = (b, n, Linear.in_features (MHESA.project_in self)) ->
  Linear.out_features (MHESA.project_in self) = inner ->
  Linear.in_features (MHESA.project_out self) = inner ->
  (1 <= n)%nat ->
  exists y, MHESA.forward self x naive = Some y
            /\ shape_of y = (b, n, Linear.out_features (MHESA.project_out self)).
Proof.
  intros inner Hx Hin Hout Hn.
  unfold MHESA.forward.
  destruct (Linear_forward_shape _ _ _ _ Hx) as (x1 & -> & S1).
  cbn [bind]. unfold shape_of in Hx, S1.
  injection Hx as X0 X1 X2. injection S1 as Y0 Y1 Y2.
  rewrite Y2, Hin. fold inner. rewrite Nat.eqb_refl. cbn [negb].
  rewrite X0, X1.
  pose proof (next_fast_len_ge (n + n - 1)) as HL.
  destruct (Nat.eqb_spec (next_fast_len (n + n - 1)) 0) as [|_]; [lia|].
  destruct (Nat.ltb_spec (next_fast_len (n + n - 1)) n) as [|_]; [lia|].
  cbn [orb]. destruct naive; cbn [bind];
    apply Linear_forward_shape; unfold shape_of; cbn [d0 d1 d2];
    now rewrite Hout.
Qed.

Lemma conv1d_fft_bnd_shape x M w :
  (1 <= d1 x)%nat -> (1 <= M)%nat ->
  exists y, conv1d_fft_bnd x M w = Some y /\ shape_of y = shape_of x.
Proof.
  intros Hn HM. unfold conv1d_fft_bnd.
  pose proof (next_fast_len_ge (d1 x + M - 1)) as HL.
  destruct (Nat.eqb_spec (next_fast_len (d1 x + M - 1)) 0) as [|_]; [lia|].
  destruct (Nat.ltb_spec (next_fast_len (d1 x + M - 1)) (d1 x)) as [|_]; [lia|].
  cbn [orb]. eexists; split; reflexivity.
Qed.

Lemma Level_forward_shape self x g s b n tf :
  shape_of x = (b, n, tf) ->
  shape_of g = (b, n, Linear.in_features (Level.to_growth self)) ->
  shape_of s = (b, n, Linear.in_features (Level.to_seasonal self)) ->
  Linear.out_features (Level.to_seasonal self) = tf ->
  (1 <= n)%nat ->
  exists y, Level.forward self x g s = Some y /\ shape_of y = (b, n, tf).
Proof.
  intros Hx Hg Hs Hout Hn. unfold Level.forward.
  destruct (Linear_forward_shape _ _ _ _ Hs) as (sea & -> & Ssea).
  cbn [bind]. rewrite Hout in Ssea.
  destruct (bzip3_shape Rminus x sea _ Hx Ssea) as (xs & -> & Sxs).
  cbn [bind].
  assert (Hd1 : d1 x = n) by (unfold shape_of in Hx; congruence).
  assert (Hd1' : d1 xs = n) by (unfold shape_of in Sxs; congruence).
  destruct (conv1d_fft_bnd_shape xs (d1 x)
              (decay_weights (Level.decay self) (d1 x))) as (t1 & -> & S1);
    try lia.
  cbn [bind].
  destruct (Linear_forward_shape _ _ _ _ Hg) as (gr & -> & _).
  cbn [bind].
  destruct (conv1d_fft_bnd_shape x (d1 x)
              (decay_weights (Level.decay self) (d1 x))) as (t2 & -> & S2);
    try lia.
  cbn [bind]. apply bzip3_shape; congruence.
Qed.

Lemma linear_shaped_spec i o l :
  ETSFormer.linear_shaped i o l = true ->
  Linear.in_features l = i /\ Linear.out_features l = o.
Proof.
  unfold ETSFormer.linear_shaped. intros H.
  apply andb_prop in H. destruct H as [H1 H2].
  apply Nat.eqb_eq in H1, H2. auto.
Qed.

Lemma layer_forward_shape tf md K l x z b n :
  ETSFormer.layer_shaped tf md K l = true ->
  shape_of x = (b, n, tf) -> shape_of z = (b, n, md) ->
  (2 <= n)%nat -> Nat.even n = true -> (K <= n / 2 + 1)%nat ->
  exists x' z',
    ETSFormer.layer_forward l (x, z) = Some (x', z')
    /\ shape_of x' = (b, n, tf) /\ shape_of z' = (b, n, md).
Proof.
  intros Hl Hx Hz Hn He HK. unfold ETSFormer.layer_shaped in Hl.
  repeat (apply andb_prop in Hl; destruct Hl as [Hl ?]).
  apply Nat.eqb_eq in Hl.
  repeat match goal with
         | H : ETSFormer.linear_shaped _ _ _ = true |- _ =>
             apply linear_shaped_spec in H; destruct H
         | H : (_ =? _)%nat = true |- _ => apply Nat.eqb_eq in H
         end.
  unfold ETSFormer.layer_forward.
  destruct (FrequencyAttention_forward_shape (ETSFormer.freq_attn l) z b n md)
    as (ls & -> & Sls); auto; [lia|].
  cbn [bind].
  destruct (bzip3_shape Rminus z ls _ Hz Sls) as (z1 & -> & Sz1).
  cbn [bind].
  destruct (MHESA_forward_shape (ETSFormer.mhes_attn l) z1 b n false)
    as (lg & -> & Slg); try congruence; [lia|].
  cbn [bind].
  assert (Slg' : shape_of lg = (b, n, md)) by congruence.
  destruct (bzip3_shape Rminus z1 lg _ Sz1 Slg') as (z2 & -> & Sz2).
  cbn [bind].
  destruct (LayerNorm_forward_shape (ETSFormer.attn_post_ln l) z2 b n)
    as (z3 & -> & Sz3); [congruence|].
  cbn [bind].
  assert (Sz3' : shape_of z3 = (b, n, md)) by congruence.
  assert (Hff : exists z4,
    (if exists_ (ETSFormer.ff_block l)
     then match ETSFormer.ff_block l with
          | Some ff => FeedForwardBlock.forward ff z3
          | None => None
          end
     else Some z3) = Some z4 /\ shape_of z4 = (b, n, md)).
  { destruct (ETSFormer.ff_block l) as [ff|]; cbn [exists_].
    - match goal with H : _ = true |- _ =>
        repeat (apply andb_prop in H; destruct H as [H ?]);
        apply Nat.eqb_eq in H end.
      repeat match goal with
             | H : (_ =? _)%nat = true |- _ => apply Nat.eqb_eq in H
             end.
      apply FeedForwardBlock_forward_shape; auto.
    - eauto. }
  destruct Hff as (z4 & -> & Sz4). cbn [bind].
  destruct (Level_forward_shape (ETSFormer.level l) x ls lg b n tf)
    as (x' & -> & Sx'); try congruence; [lia|].
  cbn [bind]. eauto.
Qed.

Lemma encoder_shape tf md K ls : forall x z b n,
  forallb (ETSFormer.layer_shaped tf md K) ls = true ->
  shape_of x = (b, n, tf) -> shape_of z = (b, n, md) ->
  (2 <= n)%nat -> Nat.even n = true -> (K <= n / 2 + 1)%nat ->
  exists x' z',
    ETSFormer.encoder ls (x, z) = Some (x', z')
    /\ shape_of x' = (b, n, tf) /\ shape_of z' = (b, n, md).
Proof.
  induction ls as [|l ls IH]; intros x z b n Hls Hx Hz Hn He HK.
  - simpl. eauto.
  - simpl in Hls. apply andb_prop in Hls. destruct Hls as [Hl Hls].
    destruct (layer_forward_shape tf md K l x z b n)
      as (x1 & z1 & E & Sx1 & Sz1); auto.
    cbn [ETSFormer.encoder]. rewrite E. cbn [bind]. now apply IH.
Qed.


(** ** Decay coefficients and weights *)

Lemma sigmoid_0 : sigmoid 0 = 1 / 2.
Proof. unfold sigmoid. rewrite Ropp_0, exp_0. lra. Qed.



Lemma flip_arange_spec n t : (t < n)%nat -> flip_arange n t = (n - 1 - t)%nat.
Proof.
  intros Ht. unfold flip_arange, arange.
  rewrite rev_nth by (rewrite length_seq; lia).
  rewrite length_seq, seq_nth by lia. lia.
Qed.

(** ** The constructor *)

Lemma is_last_layer_false ind layers :
  (ind < layers)%nat -> ETSFormer.is_last_layer ind layers = false.
Proof. intros H. unfold ETSFormer.is_last_layer. apply Z.eqb_neq. lia. Qed.

Lemma init_layers tf md ks layers heads dh K p r l :
  In l (ETSFormer.encoder_layers (ETSFormer.init tf md ks layers heads dh K p r)) ->
  exists ind, (ind < layers)%nat /\
    ETSFormer.ff_block l =
      Some (FeedForwardBlock.mk (LayerNorm.init md)
              (FeedForward.init md 4
                 (ETSFormer.ff_w1 (ETSFormer.layer_rand r ind))
                 (ETSFormer.ff_b1 (ETSFormer.layer_rand r ind))
                 (ETSFormer.ff_w2 (ETSFormer.layer_rand r ind))
                 (ETSFormer.ff_b2 (ETSFormer.layer_rand r ind))
                 (Dropout.mk 0 (ETSFormer.training r)
                    (ETSFormer.ff_keep1 (ETSFormer.layer_rand r ind)))
                 (Dropout.mk 0 (ETSFormer.training r)
                    (ETSFormer.ff_keep2 (ETSFormer.layer_rand r ind)))))
    /\ ETSFormer.layer_shaped tf md K l = true.
Proof.
  unfold ETSFormer.init. cbn [ETSFormer.encoder_layers].
  intros Hin. apply in_map_iff in Hin. destruct Hin as (ind & <- & Hind).
  apply in_seq in Hind. exists ind. split; [lia|].
  unfold ETSFormer.init_layer.
  rewrite is_last_layer_false by lia. cbn [negb ETSFormer.ff_block].
  split; [reflexivity|].
  unfold ETSFormer.layer_shaped, ETSFormer.linear_shaped, MHESA.init,
    Level.init, FeedForward.init, LayerNorm.init.
  cbn. now rewrite !Nat.eqb_refl.
Qed.

Lemma init_shaped tf md ks layers heads dh K p r :
  ETSFormer.shaped tf md ks K
    (ETSFormer.init tf md ks layers heads dh K p r) = true.
Proof.
  unfold ETSFormer.shaped.
  assert (Hl : forallb (ETSFormer.layer_shaped tf md K)
            (ETSFormer.encoder_layers
               (ETSFormer.init tf md ks layers heads dh K p r)) = true).
  { apply forallb_forall. intros l Hl.
    now destruct (init_layers _ _ _ _ _ _ _ _ _ _ Hl) as (_ & _ & _ & H). }
  rewrite Hl. unfold ETSFormer.init, InputEmbedding.init. cbn.
  now rewrite !Nat.eqb_refl.
Qed.

Lemma init_length tf md ks layers heads dh K p r :
  length (ETSFormer.encoder_layers
            (ETSFormer.init tf md ks layers heads dh K p r)) = layers.
Proof.
  unfold ETSFormer.init. cbn [ETSFormer.encoder_layers].
  now rewrite length_map, length_seq.
Qed.

(** ** Raising *)

Lemma fa_forward_topk_raises self x :
  (FrequencyAttention.rfft_bins (d1 x) < FrequencyAttention.K self)%nat ->
  FrequencyAttention.forward self x = None.
Proof.
  intros H. unfold FrequencyAttention.forward.
  destruct (d1 x =? 0)%nat; [reflexivity|].
  destruct (Nat.ltb_spec (FrequencyAttention.rfft_bins (d1 x))
                         (FrequencyAttention.K self)) as [_|]; [reflexivity|lia].
Qed.


(** * The claims *)







(** C3 (what the code does): [Level.forward] returns the same result for
    any two growth latents of one shape; the projected growth latent is
    computed and dropped, and the second summand is the smoothed raw
    signal. *)
Theorem C3_level_ignores_latent_growth
    (self : Level.t) (x latent_seasonal : T3) (b n d : nat)
    (g1 g2 : nat -> nat -> nat -> R) :
  Level.forward self x (mkT3 b n d g1) latent_seasonal
  = Level.forward self x (mkT3 b n d g2) latent_seasonal.
Proof.
  unfold Level.forward.
  destruct (Linear.forward (Level.to_seasonal self) latent_seasonal);
    cbn [bind]; [|reflexivity].
  destruct (bzip3 Rminus x t); cbn [bind]; [|reflexivity].
  destruct (conv1d_fft_bnd t0 (d1 x) _); cbn [bind]; [|reflexivity].
  unfold Linear.forward. cbn [d2].
  destruct (d =? Linear.in_features (Level.to_growth self))%nat; reflexivity.
Qed.

(** C4 (the code at the failing input): on the series [2, -1] with
    [K = 1] and no dropout, frequency attention returns [1/2, -1/2], and
    applied to that it returns [0, 0]: [scatter] writes the first bin of
    the spectrum at the place of the largest one, so the second pass does
    not retain what the first one kept. *)
Theorem C4_frequency_attention_twice_differs :
  exists y z,
    FrequencyAttention.forward fa_top1 x_two = Some y
    /\ FrequencyAttention.forward fa_top1 y = Some z
    /\ at3 y 0 0 0 = 1 / 2 /\ at3 z 0 0 0 = 0 /\ ~ teq3 z y.
Proof.
  assert (Hdr : Dropout.inactive (eval_mode 0)) by (left; reflexivity).
  assert (Hy : forall j, (j < 2)%nat ->
     at3 (fa_result fa_top1 x_two) 0 j 0
     = (if (j =? 0)%nat then 1 else -1) * 1 / 2).
  { intros j Hj. unfold fa_top1.
    rewrite fa_len2_top1; auto; simpl; try lra. }
  assert (Hz : at3 (fa_result fa_top1 (fa_result fa_top1 x_two)) 0 0 0 = 0).
  { unfold fa_top1 at 1. rewrite fa_len2_top1.
    - rewrite !Hy by lia. cbn [Nat.eqb]. lra.
    - assumption.
    - reflexivity.
    - rewrite !Hy by lia. cbn [Nat.eqb]. lra.
    - rewrite !Hy by lia. cbn [Nat.eqb]. lra.
    - lia. }
  exists (fa_result fa_top1 x_two), (fa_result fa_top1 (fa_result fa_top1 x_two)).
  split; [apply fa_forward_some; vm_compute; lia|].
  split; [apply fa_forward_some; vm_compute; lia|].
  split; [rewrite Hy by lia; cbn [Nat.eqb]; lra|].
  split; [exact Hz|].
  intros (_ & _ & _ & E).
  assert (E0 : at3 (fa_result fa_top1 (fa_result fa_top1 x_two)) 0 0 0
               = at3 (fa_result fa_top1 x_two) 0 0 0)
    by (apply E; vm_compute; lia).
  rewrite Hz, Hy in E0 by lia. cbn [Nat.eqb] in E0. lra.
Qed.

(** C5 (the code at the failing input): on a series of three time steps
    frequency attention returns a series of two, and on every odd number
    [2 m + 3] of time steps one step less; [irfft] is called without the
    length of the input. *)
Theorem C5_odd_length_is_shortened
    (dr : Dropout.t) (f : nat -> nat -> nat -> R) (m b d : nat) :
  (exists y,
     FrequencyAttention.forward (FrequencyAttention.mk 1 dr) (mkT3 1 3 1 f)
       = Some y
     /\ d1 y = 2%nat)
  /\ exists y,
       FrequencyAttention.forward (FrequencyAttention.mk 1 dr)
         (mkT3 b (2 * m + 3) d f) = Some y
       /\ d1 y = (2 * m + 2)%nat.
Proof.
  split.
  - eexists. split.
    + apply fa_forward_some; vm_compute; lia.
    + reflexivity.
  - exists (fa_result (FrequencyAttention.mk 1 dr) (mkT3 b (2 * m + 3) d f)).
    split.
    + apply fa_forward_some; cbn [d1 FrequencyAttention.K];
        unfold FrequencyAttention.rfft_bins; lia.
    + unfold fa_result. cbn [d1]. rewrite irfft_default_len_bins.
      replace (2 * m + 3)%nat with (1 + (m + 1) * 2)%nat by lia.
      rewrite Nat.div_add by lia. change (1 / 2)%nat with 0%nat. lia.
Qed.




(** C7: entry [t] of the decay weights for time length [n] is
    [alpha * (1 - alpha) ^ (n - 1 - t)], the powers running over the
    reversed time indices, so that the last step is weighted by [alpha];
    these are the weights of every head of MHESA, with the sigmoid of its
    parameter for [alpha]; for [alpha = 1/2] (a head whose parameter is 0)
    and [n = 4] the weights are
    [1/2 * (1/2)^3, 1/2 * (1/2)^2, 1/2 * (1/2)^1, 1/2 * (1/2)^0]. *)
Theorem C7_decay_weights (alpha : R) (n t : nat) :
  (t < n)%nat ->
  decay_weights alpha n t = alpha * (1 - alpha) ^ (n - 1 - t)
  /\ decay_weights alpha n (n - 1) = alpha
  /\ (forall self h,
        MHESA.weights self n h t
        = MHESA.decay self h * (1 - MHESA.decay self h) ^ (n - 1 - t))
  /\ map (decay_weights (1 / 2) 4) (arange 4)
     = [1 / 2 * (1 / 2) ^ 3; 1 / 2 * (1 / 2) ^ 2;
        1 / 2 * (1 / 2) ^ 1; 1 / 2 * (1 / 2) ^ 0]
  /\ forall self h, MHESA.alpha self h = 0 -> MHESA.decay self h = 1 / 2.
Proof.
  intros Ht. unfold MHESA.weights, decay_weights. repeat split.
  - now rewrite flip_arange_spec.
  - rewrite flip_arange_spec by lia.
    replace (n - 1 - (n - 1))%nat with 0%nat by lia. simpl. ring.
  - intros self h. now rewrite flip_arange_spec.
  - cbn [arange seq map].
    rewrite !flip_arange_spec by lia. cbn [Nat.sub].
    replace (1 - 1 / 2) with (1 / 2) by lra. reflexivity.
  - intros self h E. unfold MHESA.decay. rewrite E. apply sigmoid_0.
Qed.

Lemma C7_decay_weights_witness :
  (0 < 4)%nat
  /\ decay_weights (1 / 2) 4 0 = 1 / 2 * (1 - 1 / 2) ^ (4 - 1 - 0)
  /\ decay_weights (1 / 2) 4 (4 - 1) = 1 / 2
  /\ (forall self h,
        MHESA.weights self 4 h 0
        = MHESA.decay self h * (1 - MHESA.decay self h) ^ (4 - 1 - 0))
  /\ map (decay_weights (1 / 2) 4) (arange 4)
     = [1 / 2 * (1 / 2) ^ 3; 1 / 2 * (1 / 2) ^ 2;
        1 / 2 * (1 / 2) ^ 1; 1 / 2 * (1 / 2) ^ 0]
  /\ forall self h, MHESA.alpha self h = 0 -> MHESA.decay self h = 1 / 2.
Proof.
  assert (H : (0 < 4)%nat) by lia.
  split; [exact H|]. exact (C7_decay_weights (1 / 2) 4 0 H).
Defined.

(** C8 (counterexample): for [n = 3] and the kernel [0, 1, 2], the
    gathered entry at row 1, column 0 is the kernel entry at index
    [(0 - 1 - 1) mod 3 = 1], not the one at [(1 - 0 - 1) mod 3 = 0]. *)
Lemma C8_gather_index_counterexample :
  MHESA.gathered 3 ramp_kernel 0 1 0
  <> ramp_kernel 0 (spec_gather_index 3 1 0).
Proof.
  unfold MHESA.gathered, ramp_kernel.
  change (gather_index 3 1 0) with 1%nat.
  change (spec_gather_index 3 1 0) with 0%nat.
  simpl. lra.
Qed.

(** C8 (amended): the gathered weight matrix entry at row [t] and column
    [s] is the kernel entry at index [(s - t - 1) mod n], which is
    [n - 1 - (t - s)] on and below the diagonal; the lower-triangular
    mask zeroes every entry above the diagonal, and the output of the
    naive path at time [t] depends only on the inputs at times [<= t]. *)
Theorem C8_gather_tril_causal
    (self : MHESA.t) (n : nat) (weights : nat -> nat -> R)
    (h t s : nat) :
  (t < n)%nat -> (s < n)%nat ->
  MHESA.gathered n weights h t s
    = weights h (Z.to_nat ((Z.of_nat s - Z.of_nat t - 1) mod Z.of_nat n))
  /\ ((s <= t)%nat ->
      MHESA.gathered n weights h t s = weights h (n - 1 - (t - s))%nat)
  /\ (forall w, (t < s)%nat -> MHESA.tril w h t s = 0)
  /\ (forall (x x' : T4) b d,
        (forall l, (l <= t)%nat -> x b h l d = x' b h l d) ->
        MHESA.naive_Aes self n x weights b h t d
        = MHESA.naive_Aes self n x' weights b h t d).
Proof.
  intros Ht Hs. repeat split.
  - unfold MHESA.gathered, gather_index. do 2 f_equal. f_equal. lia.
  - intros Hst. unfold MHESA.gathered. now rewrite gather_index_causal.
  - intros w Hts. unfold MHESA.tril.
    destruct (Nat.leb_spec s t) as [|_]; [lia|reflexivity].
  - intros x x' b d Hx. unfold MHESA.naive_Aes.
    apply rsum_ext; intros l Hl. unfold MHESA.tril.
    destruct (Nat.leb_spec l t) as [Hle|_]; [|ring].
    now rewrite Hx.
Qed.

Lemma C8_gather_tril_causal_witness :
  (1 < 3)%nat /\ (0 < 3)%nat
  /\ MHESA.gathered 3 ramp_kernel 0 1 0
      = ramp_kernel 0 (Z.to_nat ((Z.of_nat 0 - Z.of_nat 1 - 1) mod Z.of_nat 3))
  /\ ((0 <= 1)%nat ->
      MHESA.gathered 3 ramp_kernel 0 1 0 = ramp_kernel 0 (3 - 1 - (1 - 0)))
  /\ (forall w, (1 < 0)%nat -> MHESA.tril w 0%nat 1%nat 0%nat = 0)
  /\ (forall (x x' : T4) b d,
        (forall l, (l <= 1)%nat -> x b 0%nat l d = x' b 0%nat l d) ->
        MHESA.naive_Aes (mhesa_unit (eval_mode 0)) 3 x ramp_kernel b 0%nat 1%nat d
        = MHESA.naive_Aes (mhesa_unit (eval_mode 0)) 3 x' ramp_kernel
            b 0%nat 1%nat d).
Proof.
  assert (H1 : (1 < 3)%nat) by lia.
  assert (H2 : (0 < 3)%nat) by lia.
  split; [exact H1|]. split; [exact H2|].
  exact (C8_gather_tril_causal (mhesa_unit (eval_mode 0)) 3
           ramp_kernel 0 1 0 H1 H2).
Defined.

(** * Further lemmas *)

(** ** More on the convolution *)

Lemma rsum_S n f : rsum (S n) f = rsum n f + f n.
Proof. reflexivity. Qed.

Lemma next_fast_len_pos N M :
  (1 <= N)%nat -> (1 <= M)%nat ->
  (0 < next_fast_len (N + M - 1))%nat /\ (N <= next_fast_len (N + M - 1))%nat.
Proof.
  intros HN HM. pose proof (next_fast_len_ge (N + M - 1)). lia.
Qed.

Lemma conv1d_fft_empty N M x w :
  (N + M <= 1)%nat -> conv1d_fft N M x w = None.
Proof.
  intros H. unfold conv1d_fft.
  replace (N + M - 1)%nat with 0%nat by lia. reflexivity.
Qed.

Lemma circ_corr_linear L N M a x y w j :
  circ_corr L N M (fun s => a * x s + y s) w j
  = a * circ_corr L N M x w j + circ_corr L N M y w j.
Proof.
  unfold circ_corr. rewrite <- rsum_scal, <- rsum_plus.
  apply rsum_ext; intros s _. unfold zero_pad.
  destruct (s <? N)%nat; ring.
Qed.

Lemma fibre_conv1d_fft_linear N M a x y w t :
  (1 <= N)%nat -> (1 <= M)%nat ->
  fibre (conv1d_fft N M (fun s => a * x s + y s) w) t
  = a * fibre (conv1d_fft N M x w) t + fibre (conv1d_fft N M y w) t.
Proof.
  intros HN HM. destruct (next_fast_len_pos N M HN HM) as [H0 H1].
  destruct (conv1d_fft_circ N M (fun s => a * x s + y s) w H0 H1)
    as (o1 & -> & E1).
  destruct (conv1d_fft_circ N M x w H0 H1) as (o2 & -> & E2).
  destruct (conv1d_fft_circ N M y w H0 H1) as (o3 & -> & E3).
  cbn [fibre]. rewrite E1, E2, E3. apply circ_corr_linear.
Qed.

(** The causal convolution with the decay kernel is exponential
    smoothing. *)
Lemma causal_conv_decay alpha n x t :
  (t < n)%nat ->
  causal_conv_ref n n x (decay_weights alpha n) t = exp_smooth alpha x t.
Proof.
  intros Ht. unfold causal_conv_ref.
  rewrite (rsum_ext _ _ (fun s => alpha * (1 - alpha) ^ (t - s) * x s)).
  2:{ intros s Hs. destruct (Nat.ltb_spec (t - s) n) as [_|]; [|lia].
      unfold decay_weights. rewrite flip_arange_spec by lia.
      replace (n - 1 - (n - 1 - (t - s)))%nat with (t - s)%nat by lia.
      reflexivity. }
  clear Ht. induction t as [|t IH].
  - simpl. ring.
  - rewrite (rsum_S (S t)). cbn [exp_smooth]. rewrite <- IH, Nat.sub_diag.
    rewrite <- rsum_scal. cbn [pow].
    replace (rsum (S t) (fun s => alpha * (1 - alpha) ^ (S t - s) * x s))
      with (rsum (S t) (fun s => (1 - alpha) * (alpha * (1 - alpha) ^ (t - s) * x s))).
    + ring.
    + apply rsum_ext; intros s Hs.
      replace (S t - s)%nat with (S (t - s)) by lia. cbn [pow]. ring.
Qed.


Lemma exp_smooth_minus alpha x y t :
  exp_smooth alpha (fun j => x j - y j) t
  = exp_smooth alpha x t - exp_smooth alpha y t.
Proof.
  induction t as [|t IH]; cbn [exp_smooth]; [|rewrite IH]; ring.
Qed.

Lemma exp_smooth_ext alpha x y t :
  (forall s, (s <= t)%nat -> x s = y s) ->
  exp_smooth alpha x t = exp_smooth alpha y t.
Proof.
  induction t as [|t IH]; intros H; cbn [exp_smooth].
  - now rewrite H.
  - rewrite IH, H by (auto; intros; apply H; lia). reflexivity.
Qed.


(** ** MHESA is the growth recurrence between its projections *)




Lemma MHESA_forward_in_features self x naive y :
  MHESA.forward self x naive = Some y ->
  d2 x = Linear.in_features (MHESA.project_in self)
  /\ shape_of y = (d0 x, d1 x, Linear.out_features (MHESA.project_out self)).
Proof.
  intros H. unfold MHESA.forward in H. unfold Linear.forward at 1 in H.
  destruct (Nat.eqb_spec (d2 x) (Linear.in_features (MHESA.project_in self)))
    as [E|]; cbn [bind] in H; [|discriminate].
  split; [exact E|].
  destruct (negb _); [discriminate|].
  destruct (if naive then _ else _); cbn [bind] in H; [|discriminate].
  unfold Linear.forward in H. cbn [d0 d1 d2] in H.
  destruct (_ =? _)%nat; [|discriminate].
  injection H as <-. reflexivity.
Qed.

Lemma MHESA_forward_mismatch self x naive :
  d2 x <> Linear.in_features (MHESA.project_in self) ->
  MHESA.forward self x naive = None.
Proof.
  intros H. unfold MHESA.forward, Linear.forward.
  destruct (Nat.eqb_spec (d2 x) (Linear.in_features (MHESA.project_in self)));
    [contradiction|reflexivity].
Qed.

Lemma exp_smooth_ones alpha t :
  exp_smooth alpha (fun _ => 1) t + (1 - alpha) ^ (t + 1) = 1.
Proof.
  induction t as [|t IH].
  - simpl. ring.
  - cbn [exp_smooth]. replace (S t + 1)%nat with (S (t + 1)) by lia.
    cbn [pow].
    replace ((1 - alpha) * exp_smooth alpha (fun _ => 1) t + alpha * 1
             + (1 - alpha) * (1 - alpha) ^ (t + 1))
      with ((1 - alpha) * (exp_smooth alpha (fun _ => 1) t
                           + (1 - alpha) ^ (t + 1)) + alpha) by ring.
    rewrite IH. ring.
Qed.

Lemma masked_row_sum n weights h t :
  (t < n)%nat ->
  rsum n (fun l => MHESA.tril (MHESA.gathered n weights) h t l)
  = causal_conv_ref n n (fun _ => 1) (weights h) t.
Proof.
  intros Ht. unfold causal_conv_ref.
  rewrite (rsum_prefix n (S t)).
  - apply rsum_ext; intros l Hl. unfold MHESA.tril.
    destruct (Nat.leb_spec l t) as [_|]; [|lia].
    unfold MHESA.gathered. rewrite gather_index_causal by lia.
    destruct (Nat.ltb_spec (t - l) n) as [_|]; [|lia]. ring.
  - lia.
  - intros l Hl. unfold MHESA.tril.
    destruct (Nat.leb_spec l t) as [|_]; [lia|reflexivity].
Qed.

(** ** Frequency attention: selection and scatter *)

Lemma argmax_in a best cands : In (argmax a best cands) (best :: cands).
Proof.
  revert best. induction cands as [|i rest IH]; intros best; cbn [argmax].
  - now left.
  - destruct (Rlt_dec (a best) (a i)).
    + right. apply IH.
    + destruct (IH best) as [H|H]; [now left|right; now right].
Qed.

Lemma argmax_max a best cands i :
  In i (best :: cands) -> a i <= a (argmax a best cands).
Proof.
  revert best i. induction cands as [|c rest IH]; intros best i Hi;
    cbn [argmax].
  - destruct Hi as [->|[]]. lra.
  - destruct (Rlt_dec (a best) (a c)) as [Hlt|Hge].
    + destruct Hi as [<-|Hi].
      * pose proof (IH c c (or_introl eq_refl)). lra.
      * now apply IH.
    + destruct Hi as [<-|[<-|Hi]].
      * apply IH. now left.
      * pose proof (IH best best (or_introl eq_refl)). lra.
      * apply IH. now right.
Qed.

Lemma topk_incl k a : forall cands i, In i (topk k a cands) -> In i cands.
Proof.
  induction k as [|k IH]; intros cands i Hi; cbn [topk] in Hi; [easy|].
  destruct cands as [|c cs]; [easy|].
  destruct Hi as [<-|Hi].
  - apply argmax_in.
  - apply IH in Hi. now apply in_remove in Hi.
Qed.

Lemma topk_NoDup k a : forall cands, NoDup (topk k a cands).
Proof.
  induction k as [|k IH]; intros cands; cbn [topk]; [constructor|].
  destruct cands as [|c cs]; [constructor|].
  constructor; [|apply IH].
  intros Hin. apply topk_incl in Hin. now apply remove_In in Hin.
Qed.

Lemma remove_length_NoDup (m : nat) l :
  NoDup l -> In m l -> S (length (remove Nat.eq_dec m l)) = length l.
Proof.
  induction 1 as [|c l Hc Hl IH]; intros Hin; [easy|].
  cbn [remove]. destruct (Nat.eq_dec m c) as [->|Hne].
  - rewrite notin_remove by assumption. reflexivity.
  - destruct Hin as [->|Hin]; [easy|]. cbn [length]. now rewrite IH.
Qed.

Lemma remove_NoDup (m : nat) l : NoDup l -> NoDup (remove Nat.eq_dec m l).
Proof.
  induction 1 as [|c l Hc Hl IH]; cbn [remove]; [constructor|].
  destruct (Nat.eq_dec m c); [assumption|].
  constructor; [|assumption].
  intros Hin. apply in_remove in Hin. now destruct Hin.
Qed.

Lemma topk_length k a : forall cands,
  NoDup cands -> (k <= length cands)%nat -> length (topk k a cands) = k.
Proof.
  induction k as [|k IH]; intros cands Hnd Hk; cbn [topk]; [reflexivity|].
  destruct cands as [|c cs]; [cbn in Hk; lia|].
  cbn [length]. f_equal. apply IH.
  - now apply remove_NoDup.
  - pose proof (remove_length_NoDup (argmax a c cs) (c :: cs) Hnd
                  (argmax_in a c cs)). cbn [length] in *. lia.
Qed.

(** Every selected entry is at least as large as every entry left out. *)
Lemma topk_dominates k a : forall cands i i',
  In i (topk k a cands) -> In i' cands -> ~ In i' (topk k a cands) ->
  a i' <= a i.
Proof.
  induction k as [|k IH]; intros cands i i' Hi Hi' Hn; cbn [topk] in *;
    [easy|].
  destruct cands as [|c cs]; [easy|].
  destruct Hi as [<-|Hi].
  - now apply argmax_max.
  - apply (IH (remove Nat.eq_dec (argmax a c cs) (c :: cs))); auto.
    + apply in_in_remove; auto. intros ->. apply Hn. now left.
    + intros H. apply Hn. now right.
Qed.

(** The selected entries come largest first. *)
Lemma topk_sorted k a : forall cands r s,
  (r <= s)%nat -> (s < length (topk k a cands))%nat ->
  a (nth s (topk k a cands) O) <= a (nth r (topk k a cands) O).
Proof.
  induction k as [|k IH]; intros cands r s Hrs Hs; cbn [topk] in *;
    [cbn in Hs; lia|].
  destruct cands as [|c cs]; [cbn in Hs; lia|].
  cbn [length] in Hs. destruct r as [|r].
  - cbn [nth]. destruct s as [|s]; [lra|]. cbn [nth].
    apply argmax_max.
    assert (Hin : In (nth s (topk k a (remove Nat.eq_dec (argmax a c cs)
                                        (c :: cs))) O)
                     (topk k a (remove Nat.eq_dec (argmax a c cs) (c :: cs))))
      by (apply nth_In; lia).
    apply topk_incl in Hin. now apply in_remove in Hin.
  - destruct s as [|s]; [lia|]. cbn [nth]. apply IH; lia.
Qed.

Lemma scatter_notin index : forall pos src self i,
  ~ In i index -> scatter index pos src self i = self i.
Proof.
  induction index as [|c rest IH]; intros pos src self i Hn; cbn [scatter];
    [reflexivity|].
  rewrite IH by (intros H; apply Hn; now right).
  destruct (Nat.eqb_spec i c) as [->|_]; [|reflexivity].
  exfalso. apply Hn. now left.
Qed.

Lemma scatter_nth index : forall pos src self r,
  NoDup index -> (r < length index)%nat ->
  scatter index pos src self (nth r index O) = src (pos + r)%nat.
Proof.
  induction index as [|c rest IH]; intros pos src self r Hnd Hr;
    [cbn in Hr; lia|].
  inversion Hnd as [|? ? Hc Hrest]; subst. cbn [scatter].
  destruct r as [|r]; cbn [nth].
  - rewrite scatter_notin by assumption. rewrite Nat.eqb_refl.
    now rewrite Nat.add_0_r.
  - cbn [length] in Hr. rewrite IH by (auto; lia). f_equal. lia.
Qed.

Lemma irfft_zero m n j : irfft m (fun _ => C0) n j = 0.
Proof.
  unfold irfft. rewrite rsum_zero; [ring|].
  intros k _. unfold hermitian.
  destruct (2 * k <=? n)%nat, (k <? m)%nat, (n - k <? m)%nat;
    unfold Cmul, Cconj, C0, Re, Im; simpl; ring.
Qed.

Lemma fa_forward_none_iff self x :
  FrequencyAttention.forward self x = None
  <-> (d1 x < 2)%nat \/ (d1 x / 2 + 1 < FrequencyAttention.K self)%nat.
Proof.
  split.
  - intros H.
    destruct (Nat.lt_ge_cases (d1 x) 2) as [|Hn]; [now left|].
    destruct (Nat.lt_ge_cases (d1 x / 2 + 1) (FrequencyAttention.K self))
      as [|HK]; [now right|].
    rewrite fa_forward_some in H by assumption. discriminate.
  - intros [Hn|HK].
    + unfold FrequencyAttention.forward.
      destruct (Nat.eqb_spec (d1 x) 0) as [|Hn0]; [reflexivity|].
      assert (E : d1 x = 1%nat) by lia. rewrite E.
      change (FrequencyAttention.rfft_bins 1) with 1%nat.
      destruct (1 <? FrequencyAttention.K self)%nat; reflexivity.
    + now apply fa_forward_topk_raises.
Qed.

Lemma fa_forward_shape_inv self x y :
  FrequencyAttention.forward self x = Some y ->
  shape_of y = (d0 x, (2 * (d1 x / 2))%nat, d2 x)
  /\ (2 <= d1 x)%nat /\ (FrequencyAttention.K self <= d1 x / 2 + 1)%nat.
Proof.
  intros H.
  destruct (Nat.lt_ge_cases (d1 x) 2) as [Hn|Hn].
  { rewrite (proj2 (fa_forward_none_iff self x)) in H by now left.
    discriminate. }
  destruct (Nat.lt_ge_cases (d1 x / 2 + 1) (FrequencyAttention.K self))
    as [HK|HK].
  { rewrite (proj2 (fa_forward_none_iff self x)) in H by now right.
    discriminate. }
  rewrite fa_forward_some in H by assumption. injection H as <-.
  split; [apply fa_result_shape|]. split; assumption.
Qed.

(** ** Values through broadcasting, convolution and Level *)

Lemma bidx_in_range a i : (i < a)%nat -> bidx a i = i.
Proof.
  intros H. unfold bidx. destruct (Nat.eqb_spec a 1); [lia|reflexivity].
Qed.

Lemma bzip3_value op t u s :
  shape_of t = s -> shape_of u = s ->
  exists y, bzip3 op t u = Some y /\ shape_of y = s
    /\ forall i j k, (i < d0 t)%nat -> (j < d1 t)%nat -> (k < d2 t)%nat ->
         at3 y i j k = op (at3 t i j k) (at3 u i j k).
Proof.
  unfold shape_of. intros <- E. injection E as E0 E1 E2.
  unfold bzip3. rewrite E0, E1, E2, !bdim_same. cbn [bind].
  eexists; split; [reflexivity|]. split; [reflexivity|].
  intros i j k Hi Hj Hk. cbn [at3].
  now rewrite !bidx_in_range by assumption.
Qed.

Lemma conv1d_fft_bnd_value x w :
  (1 <= d1 x)%nat ->
  exists y, conv1d_fft_bnd x (d1 x) w = Some y /\ shape_of y = shape_of x
    /\ forall b t d, (t < d1 x)%nat ->
         at3 y b t d = causal_conv_ref (d1 x) (d1 x) (fun j => at3 x b j d) w t.
Proof.
  intros Hn. unfold conv1d_fft_bnd.
  pose proof (next_fast_len_ge (d1 x + d1 x - 1)) as HL.
  destruct (Nat.eqb_spec (next_fast_len (d1 x + d1 x - 1)) 0) as [|_]; [lia|].
  destruct (Nat.ltb_spec (next_fast_len (d1 x + d1 x - 1)) (d1 x)) as [|_];
    [lia|].
  cbn [orb]. eexists; split; [reflexivity|]. split; [reflexivity|].
  intros b t d Ht. cbn [at3]. now apply fibre_conv1d_fft_causal.
Qed.

Lemma Linear_forward_value l x b n :
  shape_of x = (b, n, Linear.in_features l) ->
  exists y, Linear.forward l x = Some y
    /\ shape_of y = (b, n, Linear.out_features l)
    /\ forall i j o,
         at3 y i j o
         = rsum (Linear.in_features l) (fun c => at3 x i j c * Linear.weight l o c)
           + Linear.bias l o.
Proof.
  unfold shape_of. intros E. injection E as E0 E1 E2.
  unfold Linear.forward. rewrite E2, Nat.eqb_refl.
  eexists; split; [reflexivity|]. split; [|reflexivity].
  simpl. now rewrite E0, E1.
Qed.

Lemma causal_conv_ref_ext N M x y w t :
  (forall s, (s <= t)%nat -> x s = y s) ->
  causal_conv_ref N M x w t = causal_conv_ref N M y w t.
Proof.
  intros H. unfold causal_conv_ref. apply rsum_ext; intros s Hs.
  rewrite H by lia. reflexivity.
Qed.

Lemma Level_forward_value self x g s b n tf :
  shape_of x = (b, n, tf) ->
  shape_of g = (b, n, Linear.in_features (Level.to_growth self)) ->
  shape_of s = (b, n, Linear.in_features (Level.to_seasonal self)) ->
  Linear.out_features (Level.to_seasonal self) = tf ->
  (1 <= n)%nat ->
  exists y, Level.forward self x g s = Some y /\ shape_of y = (b, n, tf)
    /\ forall bi t di, (bi < b)%nat -> (t < n)%nat -> (di < tf)%nat ->
         at3 y bi t di =
         exp_smooth (Level.decay self)
           (fun j => at3 x bi j di
                     - (rsum (Linear.in_features (Level.to_seasonal self))
                          (fun c => at3 s bi j c
                                    * Linear.weight (Level.to_seasonal self) di c)
                        + Linear.bias (Level.to_seasonal self) di)) t
         + exp_smooth (Level.decay self) (fun j => at3 x bi j di) t.
Proof.
  intros Hx Hg Hs Hout Hn. unfold Level.forward.
  destruct (Linear_forward_value _ _ _ _ Hs) as (sea & -> & Ssea & Vsea).
  cbn [bind]. rewrite Hout in Ssea.
  destruct (bzip3_value Rminus x sea _ Hx Ssea) as (xs & -> & Sxs & Vxs).
  cbn [bind].
  assert (Hd : d0 x = b /\ d1 x = n /\ d2 x = tf)
    by (unfold shape_of in Hx; injection Hx; auto).
  destruct Hd as (Hd0 & Hd1 & Hd2).
  assert (Hd1' : d1 xs = n) by (unfold shape_of in Sxs; congruence).
  rewrite Hd1.
  destruct (conv1d_fft_bnd_value xs (decay_weights (Level.decay self) n))
    as (t1 & E1 & S1 & V1); [lia|].
  rewrite Hd1' in E1, V1. rewrite E1. cbn [bind].
  destruct (Linear_forward_shape _ _ _ _ Hg) as (gr & -> & _).
  cbn [bind].
  destruct (conv1d_fft_bnd_value x (decay_weights (Level.decay self) n))
    as (t2 & E2 & S2 & V2); [lia|].
  rewrite Hd1 in E2, V2. rewrite E2. cbn [bind].
  assert (St1 : shape_of t1 = (b, n, tf)) by congruence.
  assert (St2 : shape_of t2 = (b, n, tf)) by congruence.
  destruct (bzip3_value Rplus t1 t2 _ St1 St2) as (y & -> & Sy & Vy).
  exists y. split; [reflexivity|]. split; [exact Sy|].
  intros bi t di Hbi Ht Hdi.
  assert (Ht1 : d0 t1 = b /\ d1 t1 = n /\ d2 t1 = tf)
    by (unfold shape_of in St1; injection St1; auto).
  destruct Ht1 as (T0 & T1 & T2).
  rewrite Vy by lia. rewrite V1, V2 by lia.
  rewrite !causal_conv_decay by lia.
  f_equal. apply exp_smooth_ext. intros j Hj.
  rewrite Vxs by lia. now rewrite Vsea.
Qed.

(** ** The embedding and the encoder: lengths and raising *)

Lemma padded_length n k :
  (1 <= n)%nat ->
  (k <= n + 2 * (k / 2))%nat
  /\ (n + 2 * (k / 2) - k + 1 = if Nat.odd k then n else n + 1)%nat.
Proof.
  intros Hn. pose proof (Nat.div_mod_eq k 2) as E.
  pose proof (Nat.bit0_mod k) as B. rewrite Nat.bit0_odd in B.
  destruct (Nat.odd k); cbn [Nat.b2n] in B; lia.
Qed.

Lemma InputEmbedding_forward_length e x b n :
  let c := InputEmbedding.conv e in
  shape_of x = (b, n, Conv1d.in_channels c) ->
  (1 <= n)%nat -> (1 <= Conv1d.kernel_size c)%nat ->
  Conv1d.padding c = (Conv1d.kernel_size c / 2)%nat ->
  exists z, InputEmbedding.forward e x = Some z
    /\ shape_of z
       = (b, if Nat.odd (Conv1d.kernel_size c) then n else (n + 1)%nat,
          Conv1d.out_channels c).
Proof.
  intros c E Hn Hk Hp. unfold shape_of in E. injection E as E0 E1 E2.
  destruct (padded_length n (Conv1d.kernel_size c) Hn) as [Hle Hlen].
  unfold InputEmbedding.forward, Conv1d.forward. fold c.
  cbn [transpose12 d0 d1 d2]. rewrite E2, Nat.eqb_refl, E1, Hp.
  cbn [negb].
  destruct (Nat.eqb_spec (Conv1d.kernel_size c) 0) as [|_]; [lia|].
  destruct (Nat.ltb_spec (n + 2 * (Conv1d.kernel_size c / 2))
                         (Conv1d.kernel_size c)) as [|_]; [lia|].
  destruct (Nat.eqb_spec n 0) as [|_]; [lia|]. cbn [andb].
  cbn [bind]. eexists; split; [reflexivity|].
  unfold shape_of. cbn [transpose12 Dropout.on d0 d1 d2].
  now rewrite E0, Hlen.
Qed.

Lemma InputEmbedding_forward_mismatch e x :
  d2 x <> Conv1d.in_channels (InputEmbedding.conv e) ->
  InputEmbedding.forward e x = None.
Proof.
  intros H. unfold InputEmbedding.forward, Conv1d.forward.
  cbn [transpose12 d0 d1 d2].
  destruct (Nat.eqb_spec (d2 x) (Conv1d.in_channels (InputEmbedding.conv e)));
    [contradiction|reflexivity].
Qed.

Lemma odd_half n : Nat.odd n = true -> (n = 2 * (n / 2) + 1)%nat.
Proof.
  intros Ho. pose proof (Nat.div_mod_eq n 2) as E.
  pose proof (Nat.bit0_mod n) as B. rewrite Nat.bit0_odd, Ho in B.
  cbn [Nat.b2n] in B. lia.
Qed.

Lemma InputEmbedding_forward_no_kernel e x :
  Conv1d.kernel_size (InputEmbedding.conv e) = 0%nat ->
  InputEmbedding.forward e x = None.
Proof.
  intros H. unfold InputEmbedding.forward, Conv1d.forward. rewrite H.
  destruct (negb _); reflexivity.
Qed.

Lemma InputEmbedding_forward_empty e x :
  d1 x = 0%nat ->
  Conv1d.padding (InputEmbedding.conv e)
    = (Conv1d.kernel_size (InputEmbedding.conv e) / 2)%nat ->
  Nat.odd (Conv1d.kernel_size (InputEmbedding.conv e)) = true
  \/ (1 <= d0 x /\ 1 <= d2 x)%nat ->
  InputEmbedding.forward e x = None.
Proof.
  intros Hn Hp H. unfold InputEmbedding.forward, Conv1d.forward.
  cbn [transpose12 d0 d1 d2]. rewrite Hn, Hp.
  destruct (negb _); [reflexivity|].
  destruct (Nat.eqb_spec (Conv1d.kernel_size (InputEmbedding.conv e)) 0)
    as [|Hk]; [reflexivity|].
  destruct (Nat.ltb_spec
              (0 + 2 * (Conv1d.kernel_size (InputEmbedding.conv e) / 2))
              (Conv1d.kernel_size (InputEmbedding.conv e)))
    as [|Hge]; [reflexivity|].
  destruct H as [Ho|[Hb Hc]].
  - apply odd_half in Ho. lia.
  - cbn [Nat.eqb andb].
    destruct (Nat.eqb_spec (d0 x) 0) as [|_]; [lia|].
    destruct (Nat.eqb_spec (d2 x) 0) as [|_]; [lia|]. reflexivity.
Qed.

Lemma odd_pos k : Nat.odd k = true -> (1 <= k)%nat.
Proof. destruct k; [discriminate|lia]. Qed.

Lemma layer_forward_odd l x z :
  Nat.odd (d1 z) = true -> ETSFormer.layer_forward l (x, z) = None.
Proof.
  intros Ho. unfold ETSFormer.layer_forward.
  destruct (FrequencyAttention.forward (ETSFormer.freq_attn l) z) as [ls|] eqn:E;
    cbn [bind]; [|reflexivity].
  apply fa_forward_shape_inv in E. destruct E as (S & Hn & _).
  assert (S0 : d0 ls = d0 z) by (unfold shape_of in S; congruence).
  assert (S1 : d1 ls = (2 * (d1 z / 2))%nat)
    by (unfold shape_of in S; congruence).
  pose proof (odd_half _ Ho) as Hh.
  unfold bzip3. rewrite S0, bdim_same. cbn [bind].
  unfold bdim at 1.
  destruct (Nat.eqb_spec (d1 z) (d1 ls)) as [|_]; [lia|].
  destruct (Nat.eqb_spec (d1 z) 1) as [|_]; [lia|].
  destruct (Nat.eqb_spec (d1 ls) 1) as [|_]; [lia|].
  reflexivity.
Qed.

Lemma layer_forward_topk l x z :
  (d1 z / 2 + 1 < FrequencyAttention.K (ETSFormer.freq_attn l))%nat ->
  ETSFormer.layer_forward l (x, z) = None.
Proof.
  intros H. unfold ETSFormer.layer_forward.
  rewrite fa_forward_topk_raises by exact H. reflexivity.
Qed.

Lemma shaped_embed tf md ks K self :
  ETSFormer.shaped tf md ks K self = true ->
  let c := InputEmbedding.conv (ETSFormer.embed self) in
  Conv1d.in_channels c = tf /\ Conv1d.out_channels c = md
  /\ Conv1d.kernel_size c = ks /\ Conv1d.padding c = (ks / 2)%nat
  /\ forallb (ETSFormer.layer_shaped tf md K) (ETSFormer.encoder_layers self)
     = true.
Proof.
  intros Hs c. unfold ETSFormer.shaped in Hs. fold c in Hs.
  repeat (apply andb_prop in Hs; destruct Hs as [Hs ?]).
  repeat match goal with
         | H : (_ =? _)%nat = true |- _ => apply Nat.eqb_eq in H
         end.
  auto.
Qed.

Lemma embed_returns tf md ks K self x b n :
  ETSFormer.shaped tf md ks K self = true ->
  shape_of x = (b, n, tf) -> (1 <= n)%nat -> (1 <= ks)%nat ->
  exists z, InputEmbedding.forward (ETSFormer.embed self) x = Some z
    /\ shape_of z = (b, if Nat.odd ks then n else (n + 1)%nat, md).
Proof.
  intros Hs Hx Hn Hks.
  destruct (shaped_embed _ _ _ _ _ Hs) as (Hin & Hout & Hk & Hp & _).
  destruct (InputEmbedding_forward_length (ETSFormer.embed self) x b n)
    as (z & E & S); try congruence.
  exists z. split; [exact E|]. now rewrite Hk, Hout in S.
Qed.

Lemma encoder_app ls1 : forall ls2 xz,
  ETSFormer.encoder (ls1 ++ ls2) xz
  = (xz' <- ETSFormer.encoder ls1 xz ;; ETSFormer.encoder ls2 xz').
Proof.
  induction ls1 as [|l ls1 IH]; intros ls2 xz; cbn [app ETSFormer.encoder bind].
  - reflexivity.
  - destruct (ETSFormer.layer_forward l xz); cbn [bind]; [apply IH|reflexivity].
Qed.

Lemma layer_forward_without_ff l x z x' z' :
  ETSFormer.layer_forward l (x, z) = Some (x', z') ->
  exists z'', ETSFormer.layer_forward (without_ff l) (x, z) = Some (x', z'').
Proof.
  unfold ETSFormer.layer_forward, without_ff.
  cbn [ETSFormer.freq_attn ETSFormer.mhes_attn ETSFormer.attn_post_ln
       ETSFormer.ff_block ETSFormer.level exists_].
  destruct (FrequencyAttention.forward _ z) as [ls|]; cbn [bind];
    [|discriminate].
  destruct (bzip3 Rminus z ls) as [z1|]; cbn [bind]; [|discriminate].
  destruct (MHESA.forward _ z1 false) as [lg|]; cbn [bind]; [|discriminate].
  destruct (bzip3 Rminus z1 lg) as [z2|]; cbn [bind]; [|discriminate].
  destruct (LayerNorm.forward _ z2) as [z3|]; cbn [bind]; [|discriminate].
  destruct (if exists_ (ETSFormer.ff_block l) then _ else _) as [z4|];
    cbn [bind]; [|discriminate].
  destruct (Level.forward _ x ls lg) as [x2|]; cbn [bind]; [|discriminate].
  intros H. injection H as <- _. eauto.
Qed.


(** ** The sigmoid in single precision *)





(** ** Rounding to binary32: digits, shifts and the shape of a result *)

Local Open Scope Z_scope.



















(** ** The sigmoid in single precision is never negative *)








Local Close Scope Z_scope.

(** ** Powers of the decay *)


(** ** The encoder loop, layer by layer *)

Lemma firstn_S_nth_error {A} (l : list A) : forall i a,
  nth_error l i = Some a -> firstn (S i) l = firstn i l ++ [a].
Proof.
  induction l as [|b l IH]; intros [|i] a H; cbn in H; try discriminate.
  - injection H as ->. reflexivity.
  - cbn [firstn app]. f_equal. now apply IH.
Qed.

Lemma encoder_prefix ls i xz r :
  ETSFormer.encoder ls xz = Some r ->
  exists r', ETSFormer.encoder (firstn i ls) xz = Some r'.
Proof.
  intros H. rewrite <- (firstn_skipn i ls), encoder_app in H.
  destruct (ETSFormer.encoder (firstn i ls) xz) as [r'|];
    [eauto|discriminate].
Qed.

Lemma layer_forward_ff l ff x z x' z' :
  ETSFormer.ff_block l = Some ff ->
  ETSFormer.layer_forward l (x, z) = Some (x', z') ->
  exists u, ff_input l z = Some u
            /\ FeedForwardBlock.forward ff u = Some z'.
Proof.
  intros Hff. unfold ETSFormer.layer_forward, ff_input. rewrite Hff.
  cbn [exists_].
  destruct (FrequencyAttention.forward _ z) as [ls|]; cbn [bind];
    [|discriminate].
  destruct (bzip3 Rminus z ls) as [z1|]; cbn [bind]; [|discriminate].
  destruct (MHESA.forward _ z1 false) as [lg|]; cbn [bind]; [|discriminate].
  destruct (bzip3 Rminus z1 lg) as [z2|]; cbn [bind]; [|discriminate].
  destruct (LayerNorm.forward _ z2) as [z3|]; cbn [bind]; [|discriminate].
  destruct (FeedForwardBlock.forward ff z3) as [z4|] eqn:E4; cbn [bind];
    [|discriminate].
  destruct (Level.forward _ x ls lg) as [x2|]; cbn [bind]; [|discriminate].
  intros H. injection H as _ <-. eauto.
Qed.

Lemma init_nth_error tf md ks layers heads dh K p r ind :
  (ind < layers)%nat ->
  nth_error (ETSFormer.encoder_layers
               (ETSFormer.init tf md ks layers heads dh K p r)) ind
  = Some (ETSFormer.init_layer tf md layers heads dh K p
            (ETSFormer.training r) (ETSFormer.layer_rand r ind) ind).
Proof.
  intros H. unfold ETSFormer.init. cbn [ETSFormer.encoder_layers].
  rewrite nth_error_map, nth_error_nth' with (d := O)
    by (now rewrite length_seq).
  rewrite seq_nth by exact H. reflexivity.
Qed.

Lemma init_layer_ff_block tf md layers heads dh K p mode li ind :
  (ind < layers)%nat ->
  exists ff,
    ETSFormer.ff_block
      (ETSFormer.init_layer tf md layers heads dh K p mode li ind) = Some ff.
Proof.
  intros H. unfold ETSFormer.init_layer. cbn [ETSFormer.ff_block].
  rewrite is_last_layer_false by exact H. cbn [negb]. eauto.
Qed.

Lemma ETSFormer_forward_returns tf md ks K self x b n nsf :
  ETSFormer.shaped tf md ks K self = true ->
  shape_of x = (b, n, tf) ->
  (2 <= n)%nat -> Nat.even n = true -> (K <= n / 2 + 1)%nat ->
  Nat.odd ks = true ->
  exists y, ETSFormer.forward self x nsf = Some y.
Proof.
  intros Hs Hx Hn He HK Hk.
  destruct (embed_returns _ _ _ _ _ _ _ _ Hs Hx ltac:(lia) (odd_pos _ Hk))
    as (z & E & Sz).
  rewrite Hk in Sz.
  destruct (shaped_embed _ _ _ _ _ Hs) as (_ & _ & _ & _ & Hls).
  destruct (encoder_shape _ _ _ _ x z b n Hls Hx Sz Hn He HK)
    as (x1 & z1 & E1 & Sx1 & _).
  unfold ETSFormer.forward. rewrite E. cbn [bind]. rewrite E1.
  cbn [bind fst]. unfold LevelStack.forward.
  unfold shape_of in Sx1. injection Sx1 as _ X1 _.
  destruct (Nat.eqb_spec (d1 x1) 0) as [|_]; [lia|]. eauto.
Qed.

(** * The claims on the decay coefficient and the feed-forward block *)




(** C10: in a constructed model with at least one layer,
    [is_last_layer] is false at every index of [range(layers)] and every
    encoder layer holds a feed-forward block; whenever the encoder loop
    gets through layer [ind], the latent it hands on is the output of that
    layer's feed-forward block on the normalised latent; and in every
    forward pass that returns, the embedding returned and this holds at
    every layer. *)
Theorem C10_feed_forward_in_every_layer
    (time_features model_dim embed_kernel_size layers heads dim_head K : nat)
    (dropout : R) (r : ETSFormer.model_init)
    (x : T3) (num_steps_forecast : nat) :
  (1 <= layers)%nat ->
  let self := ETSFormer.init time_features model_dim embed_kernel_size layers
                heads dim_head K dropout r in
  let ls := ETSFormer.encoder_layers self in
  length ls = layers
  /\ (forall ind, (ind < layers)%nat ->
        ETSFormer.is_last_layer ind layers = false
        /\ exists l ff,
             nth_error ls ind = Some l /\ ETSFormer.ff_block l = Some ff)
  /\ (forall ind xz0 xz', (ind < layers)%nat ->
        ETSFormer.encoder (firstn (S ind) ls) xz0 = Some xz' ->
        exists l ff xz u,
          nth_error ls ind = Some l /\ ETSFormer.ff_block l = Some ff
          /\ ETSFormer.encoder (firstn ind ls) xz0 = Some xz
          /\ ff_input l (snd xz) = Some u
          /\ FeedForwardBlock.forward ff u = Some (snd xz'))
  /\ (forall y,
        ETSFormer.forward self x num_steps_forecast = Some y ->
        exists z0,
          InputEmbedding.forward (ETSFormer.embed self) x = Some z0
          /\ forall ind, (ind < layers)%nat ->
               exists l ff xz u xz',
                 nth_error ls ind = Some l /\ ETSFormer.ff_block l = Some ff
                 /\ ETSFormer.encoder (firstn ind ls) (x, z0) = Some xz
                 /\ ff_input l (snd xz) = Some u
                 /\ FeedForwardBlock.forward ff u = Some (snd xz')
                 /\ ETSFormer.encoder (firstn (S ind) ls) (x, z0) = Some xz').
Proof.
  intros Hl self ls.
  assert (Hnth : forall ind, (ind < layers)%nat ->
            exists l ff,
              nth_error ls ind = Some l /\ ETSFormer.ff_block l = Some ff).
  { intros ind Hi.
    destruct (init_layer_ff_block time_features model_dim layers heads
                dim_head K dropout (ETSFormer.training r)
                (ETSFormer.layer_rand r ind) ind Hi) as (ff & Hff).
    eexists _, ff. split; [|exact Hff].
    unfold ls, self. now apply init_nth_error. }
  assert (Hpre : forall ind xz0 xz', (ind < layers)%nat ->
        ETSFormer.encoder (firstn (S ind) ls) xz0 = Some xz' ->
        exists l ff xz u,
          nth_error ls ind = Some l /\ ETSFormer.ff_block l = Some ff
          /\ ETSFormer.encoder (firstn ind ls) xz0 = Some xz
          /\ ff_input l (snd xz) = Some u
          /\ FeedForwardBlock.forward ff u = Some (snd xz')).
  { intros ind xz0 xz' Hi H.
    destruct (Hnth ind Hi) as (l & ff & Hn & Hff).
    rewrite (firstn_S_nth_error ls ind l Hn), encoder_app in H.
    destruct (ETSFormer.encoder (firstn ind ls) xz0) as [[xi zi]|];
      cbn [bind ETSFormer.encoder] in H; [|discriminate].
    destruct (ETSFormer.layer_forward l (xi, zi)) as [[x' z']|] eqn:E;
      cbn [bind] in H; [|discriminate].
    injection H as <-.
    destruct (layer_forward_ff l ff xi zi x' z' Hff E) as (u & Hu & Hz).
    exists l, ff, (xi, zi), u. cbn [snd]. repeat split; assumption || reflexivity. }
  split; [apply init_length|].
  split; [intros ind Hi; split;
          [now apply is_last_layer_false|now apply Hnth]|].
  split; [exact Hpre|].
  intros y H. unfold ETSFormer.forward in H.
  destruct (InputEmbedding.forward (ETSFormer.embed self) x) as [z0|];
    cbn [bind] in H; [|discriminate].
  exists z0. split; [reflexivity|]. intros ind Hi.
  destruct (ETSFormer.encoder (ETSFormer.encoder_layers self) (x, z0))
    as [xzf|] eqn:E; cbn [bind] in H; [|discriminate].
  destruct (encoder_prefix _ (S ind) _ _ E) as (xz' & E').
  destruct (Hpre ind (x, z0) xz' Hi E') as (l & ff & xz & u & ? & ? & ? & ? & ?).
  exists l, ff, xz, u, xz'. repeat split; assumption.
Qed.

Lemma C10_feed_forward_in_every_layer_witness :
  (1 <= 1)%nat
  /\ (exists y, ETSFormer.forward small_model (zeros 1 4 1) 2 = Some y)
  /\ forall y,
       ETSFormer.forward small_model (zeros 1 4 1) 2 = Some y ->
       exists z0,
         InputEmbedding.forward (ETSFormer.embed small_model) (zeros 1 4 1)
           = Some z0
         /\ forall ind, (ind < 1)%nat ->
              exists l ff xz u xz',
                nth_error (ETSFormer.encoder_layers small_model) ind = Some l
                /\ ETSFormer.ff_block l = Some ff
                /\ ETSFormer.encoder
                     (firstn ind (ETSFormer.encoder_layers small_model))
                     (zeros 1 4 1, z0) = Some xz
                /\ ff_input l (snd xz) = Some u
                /\ FeedForwardBlock.forward ff u = Some (snd xz')
                /\ ETSFormer.encoder
                     (firstn (S ind) (ETSFormer.encoder_layers small_model))
                     (zeros 1 4 1, z0) = Some xz'.
Proof.
  assert (H1 : (1 <= 1)%nat) by lia.
  split; [exact H1|]. split.
  - apply (ETSFormer_forward_returns 1 8 3 2 small_model (zeros 1 4 1) 1 4 2);
      try reflexivity; vm_compute; lia.
  - exact (proj2 (proj2 (proj2
             (C10_feed_forward_in_every_layer 1 8 3 1 2 4 2 0 zero_init
                (zeros 1 4 1) 2 H1)))).
Defined.

(** * Further properties of the code *)

(** X1: for a non-empty signal and kernel [conv1d_fft] returns the
    circular cross-correlation of the zero-padded signal with the
    zero-padded kernel on a circle of the transform length [L], read at
    the lags [L - N + t + 1]: entry [t] is the sum over [a] of
    [x a * w ((a - (L - N + t + 1)) mod L)]. *)
Theorem X1_conv1d_fft_circular_correlation (N M : nat) (x w : nat -> R) :
  (1 <= N)%nat -> (1 <= M)%nat ->
  exists out,
    conv1d_fft N M x w = Some out
    /\ forall t,
         out t =
         rsum (next_fast_len (N + M - 1)) (fun a =>
           zero_pad N x a
           * zero_pad M w
               ((a + next_fast_len (N + M - 1)
                 - (next_fast_len (N + M - 1) - N + t + 1)
                   mod next_fast_len (N + M - 1))
                mod next_fast_len (N + M - 1))%nat).
Proof.
  intros HN HM. destruct (next_fast_len_pos N M HN HM) as [H0 H1].
  destruct (conv1d_fft_circ N M x w H0 H1) as (out & E & Hout).
  exists out. split; [exact E|]. intros t. now rewrite Hout.
Qed.

Lemma X1_conv1d_fft_circular_correlation_witness :
  (1 <= 2)%nat /\ (1 <= 1)%nat
  /\ exists out,
       conv1d_fft 2 1 step_signal unit_kernel = Some out
       /\ forall t,
            out t =
            rsum (next_fast_len (2 + 1 - 1)) (fun a =>
              zero_pad 2 step_signal a
              * zero_pad 1 unit_kernel
                  ((a + next_fast_len (2 + 1 - 1)
                    - (next_fast_len (2 + 1 - 1) - 2 + t + 1)
                      mod next_fast_len (2 + 1 - 1))
                   mod next_fast_len (2 + 1 - 1))%nat).
Proof.
  assert (H1 : (1 <= 2)%nat) by lia.
  assert (H2 : (1 <= 1)%nat) by lia.
  split; [exact H1|]. split; [exact H2|].
  exact (X1_conv1d_fft_circular_correlation 2 1 step_signal unit_kernel H1 H2).
Defined.

(** X2: [conv1d_fft] raises when signal and kernel have at most one entry
    between them (the transform length is then 0), and returns whenever
    both are non-empty. *)
Theorem X2_conv1d_fft_raises_or_returns (N M : nat) (x w : nat -> R) :
  ((N + M <= 1)%nat -> conv1d_fft N M x w = None)
  /\ ((1 <= N)%nat -> (1 <= M)%nat -> conv1d_fft N M x w <> None).
Proof.
  split.
  - apply conv1d_fft_empty.
  - intros HN HM. destruct (next_fast_len_pos N M HN HM) as [H0 H1].
    destruct (conv1d_fft_circ N M x w H0 H1) as (out & -> & _). discriminate.
Qed.

(** X3: [conv1d_fft] is linear in the signal: on [a * x + y] it returns
    [a] times its result on [x] plus its result on [y]. *)
Theorem X3_conv1d_fft_linear (N M : nat) (a : R) (x y w : nat -> R) :
  (1 <= N)%nat -> (1 <= M)%nat ->
  exists oxy ox oy,
    conv1d_fft N M (fun s => a * x s + y s) w = Some oxy
    /\ conv1d_fft N M x w = Some ox
    /\ conv1d_fft N M y w = Some oy
    /\ forall t, oxy t = a * ox t + oy t.
Proof.
  intros HN HM.
  pose proof (fun t => fibre_conv1d_fft_linear N M a x y w t HN HM) as Hlin.
  destruct (next_fast_len_pos N M HN HM) as [H0 H1].
  destruct (conv1d_fft_circ N M (fun s => a * x s + y s) w H0 H1)
    as (o1 & E1 & _).
  destruct (conv1d_fft_circ N M x w H0 H1) as (o2 & E2 & _).
  destruct (conv1d_fft_circ N M y w H0 H1) as (o3 & E3 & _).
  rewrite E1, E2, E3 in Hlin. cbn [fibre] in Hlin.
  exists o1, o2, o3. auto.
Qed.

Lemma X3_conv1d_fft_linear_witness :
  (1 <= 2)%nat /\ (1 <= 2)%nat
  /\ exists oxy ox oy,
       conv1d_fft 2 2 (fun s => 3 * step_signal s + unit_kernel s) step_signal
         = Some oxy
       /\ conv1d_fft 2 2 step_signal step_signal = Some ox
       /\ conv1d_fft 2 2 unit_kernel step_signal = Some oy
       /\ forall t, oxy t = 3 * ox t + oy t.
Proof.
  assert (H : (1 <= 2)%nat) by lia.
  split; [exact H|]. split; [exact H|].
  exact (X3_conv1d_fft_linear 2 2 3 step_signal unit_kernel step_signal H H).
Defined.

(** X4: with the decay kernel of its callers, [conv1d_fft] computes
    exponential smoothing: the output [s] satisfies [s 0 = alpha * x 0] and
    [s (t+1) = (1 - alpha) * s t + alpha * x (t+1)]. *)
Theorem X4_conv1d_fft_exponential_smoothing
    (alpha : R) (n : nat) (x : nat -> R) :
  (1 <= n)%nat ->
  exists out,
    conv1d_fft n n x (decay_weights alpha n) = Some out
    /\ out O = alpha * x O
    /\ (forall t, (S t < n)%nat ->
          out (S t) = (1 - alpha) * out t + alpha * x (S t))
    /\ forall t, (t < n)%nat -> out t = exp_smooth alpha x t.
Proof.
  intros Hn.
  destruct (conv1d_fft_causal n x (decay_weights alpha n) Hn)
    as (out & E & Hout).
  assert (Hs : forall t, (t < n)%nat -> out t = exp_smooth alpha x t).
  { intros t Ht. rewrite Hout by assumption. now apply causal_conv_decay. }
  exists out. split; [exact E|]. split; [|split; [|exact Hs]].
  - now rewrite Hs by lia.
  - intros t Ht. rewrite !Hs by lia. reflexivity.
Qed.

Lemma X4_conv1d_fft_exponential_smoothing_witness :
  (1 <= 2)%nat
  /\ exists out,
       conv1d_fft 2 2 step_signal (decay_weights (1 / 2) 2) = Some out
       /\ out O = 1 / 2 * step_signal O
       /\ (forall t, (S t < 2)%nat ->
             out (S t) = (1 - 1 / 2) * out t + 1 / 2 * step_signal (S t))
       /\ forall t, (t < 2)%nat -> out t = exp_smooth (1 / 2) step_signal t.
Proof.
  assert (H : (1 <= 2)%nat) by lia.
  split; [exact H|].
  exact (X4_conv1d_fft_exponential_smoothing (1 / 2) 2 step_signal H).
Defined.





(** X7: in every row [t < n] of the masked weight matrix of the naive
    path, the weights and the weight [(1 - alpha)^(t+1)] of the initial
    state sum to one. *)
Theorem X7_mhesa_weights_sum_to_one (self : MHESA.t) (n h t : nat) :
  (t < n)%nat ->
  rsum n (fun l =>
    MHESA.tril (MHESA.gathered n (MHESA.weights self n)) h t l)
  + (1 - MHESA.decay self h) ^ (t + 1) = 1.
Proof.
  intros Ht. rewrite masked_row_sum by assumption.
  unfold MHESA.weights.
  change (fun t0 => decay_weights (MHESA.decay self h) n t0)
    with (decay_weights (MHESA.decay self h) n).
  rewrite causal_conv_decay by assumption. apply exp_smooth_ones.
Qed.

Lemma X7_mhesa_weights_sum_to_one_witness :
  (1 < 3)%nat
  /\ rsum 3 (fun l =>
       MHESA.tril
         (MHESA.gathered 3 (MHESA.weights (mhesa_unit (eval_mode 0)) 3))
         0 1 l)
     + (1 - MHESA.decay (mhesa_unit (eval_mode 0)) 0) ^ (1 + 1) = 1.
Proof.
  assert (H : (1 < 3)%nat) by lia.
  split; [exact H|].
  exact (X7_mhesa_weights_sum_to_one (mhesa_unit (eval_mode 0)) 3 0 1 H).
Defined.

(** X8: [MHESA.forward] raises when the last dimension of the input is
    not the input width of [project_in], and its FFT path raises on a
    series without time steps; when it returns, in either path, the result
    has the batch and time dimensions of the input and the output width of
    [project_out]. *)
Theorem X8_mhesa_forward_shape (self : MHESA.t) (x : T3) (naive : bool) :
  (d2 x <> Linear.in_features (MHESA.project_in self) ->
   MHESA.forward self x naive = None)
  /\ (d1 x = 0%nat -> MHESA.forward self x false = None)
  /\ forall y,
       MHESA.forward self x naive = Some y ->
       shape_of y
       = (d0 x, d1 x, Linear.out_features (MHESA.project_out self)).
Proof.
  split; [apply MHESA_forward_mismatch|]. split.
  - intros Hn. unfold MHESA.forward. rewrite Hn.
    destruct (Linear.forward (MHESA.project_in self) x) as [x1|];
      cbn [bind]; [|reflexivity].
    destruct (negb _); reflexivity.
  - intros y H. now apply MHESA_forward_in_features in H.
Qed.

(** X9: [FrequencyAttention.forward] raises exactly when the series has
    fewer than two time steps or [K] exceeds the [n // 2 + 1] bins of its
    spectrum; when it returns, the result has the batch and channel
    dimensions of the input and [2 * (n // 2)] time steps. *)
Theorem X9_frequency_attention_raises_iff
    (self : FrequencyAttention.t) (x : T3) :
  (FrequencyAttention.forward self x = None
   <-> (d1 x < 2)%nat \/ (d1 x / 2 + 1 < FrequencyAttention.K self)%nat)
  /\ forall y,
       FrequencyAttention.forward self x = Some y ->
       shape_of y = (d0 x, (2 * (d1 x / 2))%nat, d2 x).
Proof.
  split.
  - apply fa_forward_none_iff.
  - intros y H. now apply fa_forward_shape_inv in H.
Qed.

(** X10: with [K = 0] nothing is selected and frequency attention returns
    the zero series. *)
Theorem X10_frequency_attention_K0_is_zero
    (dr : Dropout.t) (x : T3) :
  (2 <= d1 x)%nat ->
  exists y,
    FrequencyAttention.forward (FrequencyAttention.mk 0 dr) x = Some y
    /\ forall b j d, at3 y b j d = 0.
Proof.
  intros Hn. exists (fa_result (FrequencyAttention.mk 0 dr) x). split.
  - apply fa_forward_some; [exact Hn|]. cbn [FrequencyAttention.K]. lia.
  - intros b j d. unfold fa_result.
    cbn [at3 FrequencyAttention.K topk scatter]. apply irfft_zero.
Qed.

Lemma X10_frequency_attention_K0_is_zero_witness :
  (2 <= d1 x_two)%nat
  /\ exists y,
       FrequencyAttention.forward (FrequencyAttention.mk 0 (eval_mode 0)) x_two
         = Some y
       /\ forall b j d, at3 y b j d = 0.
Proof.
  assert (H : (2 <= d1 x_two)%nat) by (simpl; lia).
  split; [exact H|].
  exact (X10_frequency_attention_K0_is_zero (eval_mode 0) x_two H).
Defined.

(** X11: what frequency attention computes when it returns.  For every
    batch entry and channel there are [K] distinct bins, whose amplitudes
    (after dropout) are at least those of all other bins, largest first;
    the result is the inverse transform of a spectrum that is zero at the
    other bins and holds, at the bin of rank [r], the value of bin [r] of
    the spectrum of the input. *)
Theorem X11_frequency_attention_spectrum
    (self : FrequencyAttention.t) (x : T3) :
  (2 <= d1 x)%nat ->
  (FrequencyAttention.K self <= d1 x / 2 + 1)%nat ->
  let n := d1 x in
  let bins := (n / 2 + 1)%nat in
  let freqs := fun b k d => rfft n (fun j => at3 x b j d) n k in
  let amp :=
    Dropout.forward (FrequencyAttention.dropout self)
      (fun b k d => Cabs (freqs b k d)) in
  exists y (index : nat -> nat -> list nat)
         (spectrum : nat -> nat -> nat -> C),
    FrequencyAttention.forward self x = Some y
    /\ (forall b j d,
          at3 y b j d = irfft bins (spectrum b d) (2 * (n / 2)) j)
    /\ forall b d,
         length (index b d) = FrequencyAttention.K self
         /\ NoDup (index b d)
         /\ (forall i, In i (index b d) -> (i < bins)%nat)
         /\ (forall i i', In i (index b d) -> (i' < bins)%nat ->
               ~ In i' (index b d) -> amp b i' d <= amp b i d)
         /\ (forall r s, (r <= s)%nat -> (s < FrequencyAttention.K self)%nat ->
               amp b (nth s (index b d) O) d <= amp b (nth r (index b d) O) d)
         /\ (forall r, (r < FrequencyAttention.K self)%nat ->
               spectrum b d (nth r (index b d) O) = freqs b r d)
         /\ (forall i, ~ In i (index b d) -> spectrum b d i = C0).
Proof.
  intros Hn HK n bins freqs amp.
  set (index := fun b d =>
         topk (FrequencyAttention.K self) (fun k => amp b k d) (seq 0 bins)).
  set (spectrum := fun b d =>
         scatter (index b d) 0 (fun j => freqs b j d) (fun _ => C0)).
  assert (Hlen : forall b d, length (index b d) = FrequencyAttention.K self).
  { intros b d. apply topk_length; [apply seq_NoDup|].
    rewrite length_seq. exact HK. }
  exists (fa_result self x), index, spectrum.
  split; [now apply fa_forward_some|].
  split.
  { intros b j d. unfold fa_result. cbn [at3].
    now rewrite irfft_default_len_bins. }
  intros b d. split; [apply Hlen|]. split; [apply topk_NoDup|].
  split.
  { intros i Hi. apply topk_incl in Hi. apply in_seq in Hi. lia. }
  split.
  { intros i i' Hi Hi' Hni.
    apply (topk_dominates (FrequencyAttention.K self)
             (fun k => amp b k d) (seq 0 bins)); auto.
    apply in_seq. lia. }
  split.
  { intros r s Hrs Hs.
    apply (topk_sorted (FrequencyAttention.K self)
             (fun k => amp b k d) (seq 0 bins)); auto.
    fold (index b d). now rewrite Hlen. }
  split.
  { intros r Hr. unfold spectrum.
    rewrite scatter_nth; [reflexivity|apply topk_NoDup|now rewrite Hlen]. }
  intros i Hi. unfold spectrum. now rewrite scatter_notin.
Qed.

Lemma X11_frequency_attention_spectrum_witness :
  (2 <= d1 x_two)%nat
  /\ (FrequencyAttention.K fa_top1 <= d1 x_two / 2 + 1)%nat
  /\ exists y, FrequencyAttention.forward fa_top1 x_two = Some y.
Proof.
  assert (H1 : (2 <= d1 x_two)%nat) by (simpl; lia).
  assert (H2 : (FrequencyAttention.K fa_top1 <= d1 x_two / 2 + 1)%nat)
    by (simpl; lia).
  split; [exact H1|]. split; [exact H2|].
  destruct (X11_frequency_attention_spectrum fa_top1 x_two H1 H2)
    as (y & _ & _ & E & _).
  exists y. exact E.
Defined.

(** X12: when the shapes fit, [Level.forward] returns, entry by entry,
    twice the exponential smoothing of the raw series minus the
    exponential smoothing of the projection [to_seasonal] of its third
    argument, both with the sigmoid of the level's parameter: the smoothed
    residual [x - seasonal] plus the smoothed raw series. *)
Theorem X12_level_value
    (self : Level.t) (x g s : T3) (b n tf : nat) :
  shape_of x = (b, n, tf) ->
  shape_of g = (b, n, Linear.in_features (Level.to_growth self)) ->
  shape_of s = (b, n, Linear.in_features (Level.to_seasonal self)) ->
  Linear.out_features (Level.to_seasonal self) = tf ->
  (1 <= n)%nat ->
  exists y,
    Level.forward self x g s = Some y /\ shape_of y = (b, n, tf)
    /\ forall bi t di, (bi < b)%nat -> (t < n)%nat -> (di < tf)%nat ->
         at3 y bi t di =
         2 * exp_smooth (Level.decay self) (fun j => at3 x bi j di) t
         - exp_smooth (Level.decay self)
             (fun j =>
                rsum (Linear.in_features (Level.to_seasonal self))
                  (fun c => at3 s bi j c
                            * Linear.weight (Level.to_seasonal self) di c)
                + Linear.bias (Level.to_seasonal self) di) t.
Proof.
  intros Hx Hg Hs Hout Hn.
  destruct (Level_forward_value self x g s b n tf Hx Hg Hs Hout Hn)
    as (y & E & Sy & V).
  exists y. split; [exact E|]. split; [exact Sy|].
  intros bi t di Hbi Ht Hdi. rewrite V by assumption.
  rewrite exp_smooth_minus. ring.
Qed.

Lemma X12_level_value_witness :
  shape_of (ones 1 2 1) = (1, 2, 1)%nat
  /\ shape_of (ones 1 2 1)
     = (1, 2, Linear.in_features (Level.to_growth level_unit))%nat
  /\ shape_of (ones 1 2 1)
     = (1, 2, Linear.in_features (Level.to_seasonal level_unit))%nat
  /\ Linear.out_features (Level.to_seasonal level_unit) = 1%nat
  /\ (1 <= 2)%nat
  /\ exists y,
       Level.forward level_unit (ones 1 2 1) (ones 1 2 1) (ones 1 2 1) = Some y
       /\ shape_of y = (1, 2, 1)%nat.
Proof.
  assert (H1 : shape_of (ones 1 2 1) = (1, 2, 1)%nat) by reflexivity.
  assert (H2 : shape_of (ones 1 2 1)
     = (1, 2, Linear.in_features (Level.to_growth level_unit))%nat)
    by reflexivity.
  assert (H3 : shape_of (ones 1 2 1)
     = (1, 2, Linear.in_features (Level.to_seasonal level_unit))%nat)
    by reflexivity.
  assert (H4 : Linear.out_features (Level.to_seasonal level_unit) = 1%nat)
    by reflexivity.
  assert (H5 : (1 <= 2)%nat) by lia.
  repeat (split; [assumption|]).
  destruct (X12_level_value level_unit (ones 1 2 1) (ones 1 2 1) (ones 1 2 1)
              1 2 1 H1 H2 H3 H4 H5) as (y & E & S & _).
  exists y. split; [exact E|exact S].
Defined.

(** X13: a model with at least one encoder layer raises on every series
    with an odd number of time steps: frequency attention returns one step
    less (or raises), and the subtraction [z - latent_seasonal] fails. *)
Theorem X13_forward_raises_on_odd_length
    (time_features model_dim embed_kernel_size K : nat)
    (self : ETSFormer.t) (x : T3) (b n num_steps_forecast : nat) :
  ETSFormer.shaped time_features model_dim embed_kernel_size K self = true ->
  (1 <= length (ETSFormer.encoder_layers self))%nat ->
  shape_of x = (b, n, time_features) ->
  Nat.odd n = true -> Nat.odd embed_kernel_size = true ->
  ETSFormer.forward self x num_steps_forecast = None.
Proof.
  intros Hs Hl Hx Hn Hk.
  assert (Hn1 : (1 <= n)%nat) by (destruct n; [discriminate|lia]).
  destruct (embed_returns _ _ _ _ _ _ _ _ Hs Hx Hn1 (odd_pos _ Hk))
    as (z & E & Sz).
  rewrite Hk in Sz. unfold ETSFormer.forward. rewrite E. cbn [bind].
  destruct (ETSFormer.encoder_layers self) as [|l ls]; [cbn in Hl; lia|].
  cbn [ETSFormer.encoder]. rewrite layer_forward_odd; [reflexivity|].
  unfold shape_of in Sz. injection Sz as _ -> _. exact Hn.
Qed.

Lemma X13_forward_raises_on_odd_length_witness :
  ETSFormer.shaped 1 8 3 2 small_model = true
  /\ (1 <= length (ETSFormer.encoder_layers small_model))%nat
  /\ shape_of (zeros 1 3 1) = (1, 3, 1)%nat
  /\ Nat.odd 3 = true /\ Nat.odd 3 = true
  /\ ETSFormer.forward small_model (zeros 1 3 1) 4 = None.
Proof.
  assert (H1 : ETSFormer.shaped 1 8 3 2 small_model = true) by reflexivity.
  assert (H2 : (1 <= length (ETSFormer.encoder_layers small_model))%nat)
    by (simpl; lia).
  assert (H3 : shape_of (zeros 1 3 1) = (1, 3, 1)%nat) by reflexivity.
  assert (H4 : Nat.odd 3 = true) by reflexivity.
  repeat (split; [assumption|]).
  exact (X13_forward_raises_on_odd_length 1 8 3 2 small_model (zeros 1 3 1)
           1 3 4 H1 H2 H3 H4 H4).
Defined.

(** X14: a model with at least one encoder layer raises on every series
    whose spectrum has fewer than [K] bins, [n // 2 + 1 < K]. *)
Theorem X14_forward_raises_when_K_exceeds_bins
    (time_features model_dim embed_kernel_size K : nat)
    (self : ETSFormer.t) (x : T3) (b n num_steps_forecast : nat) :
  ETSFormer.shaped time_features model_dim embed_kernel_size K self = true ->
  (1 <= length (ETSFormer.encoder_layers self))%nat ->
  shape_of x = (b, n, time_features) ->
  (1 <= n)%nat -> Nat.odd embed_kernel_size = true ->
  (n / 2 + 1 < K)%nat ->
  ETSFormer.forward self x num_steps_forecast = None.
Proof.
  intros Hs Hl Hx Hn Hk HK.
  destruct (embed_returns _ _ _ _ _ _ _ _ Hs Hx Hn (odd_pos _ Hk))
    as (z & E & Sz).
  rewrite Hk in Sz. unfold ETSFormer.forward. rewrite E. cbn [bind].
  destruct (shaped_embed _ _ _ _ _ Hs) as (_ & _ & _ & _ & Hls).
  destruct (ETSFormer.encoder_layers self) as [|l ls]; [cbn in Hl; lia|].
  cbn [forallb] in Hls. apply andb_prop in Hls. destruct Hls as [Hsl _].
  unfold ETSFormer.layer_shaped in Hsl.
  repeat (apply andb_prop in Hsl; destruct Hsl as [Hsl _]).
  apply Nat.eqb_eq in Hsl.
  cbn [ETSFormer.encoder]. rewrite layer_forward_topk; [reflexivity|].
  unfold shape_of in Sz. injection Sz as _ -> _. now rewrite Hsl.
Qed.

Lemma X14_forward_raises_when_K_exceeds_bins_witness :
  ETSFormer.shaped 1 8 3 4 default_model = true
  /\ (1 <= length (ETSFormer.encoder_layers default_model))%nat
  /\ shape_of (zeros 1 4 1) = (1, 4, 1)%nat
  /\ (1 <= 4)%nat /\ Nat.odd 3 = true /\ (4 / 2 + 1 < 4)%nat
  /\ ETSFormer.forward default_model (zeros 1 4 1) 4 = None.
Proof.
  assert (H1 : ETSFormer.shaped 1 8 3 4 default_model = true) by reflexivity.
  assert (H2 : (1 <= length (ETSFormer.encoder_layers default_model))%nat)
    by (simpl; lia).
  assert (H3 : shape_of (zeros 1 4 1) = (1, 4, 1)%nat) by reflexivity.
  assert (H4 : (1 <= 4)%nat) by lia.
  assert (H5 : Nat.odd 3 = true) by reflexivity.
  assert (H6 : (4 / 2 + 1 < 4)%nat) by (simpl; lia).
  repeat (split; [assumption|]).
  exact (X14_forward_raises_when_K_exceeds_bins 1 8 3 4 default_model
           (zeros 1 4 1) 1 4 4 H1 H2 H3 H4 H5 H6).
Defined.

(** X15: a model without encoder layers forecasts the last observation:
    on a non-empty series, with an embedding kernel of at least one entry,
    every forecast step is the last time step of the input; with
    [embed_kernel_size = 0] the embedding raises on a non-empty batch of
    at least one channel, and so does the model. *)
Theorem X15_forward_without_layers
    (time_features model_dim embed_kernel_size K : nat)
    (self : ETSFormer.t) (x : T3) (b n num_steps_forecast : nat) :
  ETSFormer.shaped time_features model_dim embed_kernel_size K self = true ->
  ETSFormer.encoder_layers self = [] ->
  shape_of x = (b, n, time_features) -> (1 <= n)%nat ->
  ((1 <= embed_kernel_size)%nat ->
   exists y,
     ETSFormer.forward self x num_steps_forecast = Some y
     /\ shape_of y = (b, num_steps_forecast, time_features)
     /\ forall bi i di, at3 y bi i di = at3 x bi (n - 1)%nat di)
  /\ (embed_kernel_size = 0%nat -> (1 <= b)%nat -> (1 <= time_features)%nat ->
      ETSFormer.forward self x num_steps_forecast = None).
Proof.
  intros Hs Hl Hx Hn. split.
  - intros Hk.
    destruct (embed_returns _ _ _ _ _ _ _ _ Hs Hx Hn Hk) as (z & E & _).
    unfold ETSFormer.forward. rewrite E, Hl.
    cbn [bind ETSFormer.encoder fst].
    unfold LevelStack.forward.
    unfold shape_of in Hx. injection Hx as X0 X1 X2.
    destruct (Nat.eqb_spec (d1 x) 0) as [|_]; [lia|].
    eexists; split; [reflexivity|]. split.
    + unfold shape_of. cbn [d0 d1 d2]. congruence.
    + intros bi i di. cbn [at3]. now rewrite X1.
  - intros Hk _ _.
    destruct (shaped_embed _ _ _ _ _ Hs) as (_ & _ & Hks & _).
    unfold ETSFormer.forward.
    rewrite InputEmbedding_forward_no_kernel by congruence. reflexivity.
Qed.

Lemma X15_forward_without_layers_witness :
  ETSFormer.shaped 1 8 3 2 empty_model = true
  /\ ETSFormer.encoder_layers empty_model = []
  /\ shape_of (ones 1 3 1) = (1, 3, 1)%nat /\ (1 <= 3)%nat
  /\ exists y,
       ETSFormer.forward empty_model (ones 1 3 1) 4 = Some y
       /\ shape_of y = (1, 4, 1)%nat
       /\ forall bi i di, at3 y bi i di = at3 (ones 1 3 1) bi (3 - 1)%nat di.
Proof.
  assert (H1 : ETSFormer.shaped 1 8 3 2 empty_model = true) by reflexivity.
  assert (H2 : ETSFormer.encoder_layers empty_model = []) by reflexivity.
  assert (H3 : shape_of (ones 1 3 1) = (1, 3, 1)%nat) by reflexivity.
  assert (H4 : (1 <= 3)%nat) by lia.
  repeat (split; [assumption|]).
  exact (proj1 (X15_forward_without_layers 1 8 3 2 empty_model (ones 1 3 1)
                  1 3 4 H1 H2 H3 H4) H4).
Defined.

(** X16: the input embedding maps the channels to [model_dim]; on a
    non-empty series and with a kernel of at least one entry it keeps the
    number of time steps when the kernel size is odd and adds one when it
    is even ([padding = kernel_size // 2]).  It raises when the kernel
    size is 0 (on a non-empty batch of at least one channel), on an empty
    series (for an odd kernel, or when batch and channels are not empty),
    and when the input channels are not those of the convolution. *)
Theorem X16_input_embedding_length
    (e : InputEmbedding.t) (x : T3) (b n : nat) :
  shape_of x = (b, n, Conv1d.in_channels (InputEmbedding.conv e)) ->
  Conv1d.padding (InputEmbedding.conv e)
    = (Conv1d.kernel_size (InputEmbedding.conv e) / 2)%nat ->
  ((1 <= n)%nat -> (1 <= Conv1d.kernel_size (InputEmbedding.conv e))%nat ->
   exists z,
     InputEmbedding.forward e x = Some z
     /\ shape_of z
        = (b,
           if Nat.odd (Conv1d.kernel_size (InputEmbedding.conv e))
           then n else (n + 1)%nat,
           Conv1d.out_channels (InputEmbedding.conv e)))
  /\ (Conv1d.kernel_size (InputEmbedding.conv e) = 0%nat ->
      (1 <= b /\ 1 <= Conv1d.in_channels (InputEmbedding.conv e))%nat ->
      InputEmbedding.forward e x = None)
  /\ (n = 0%nat ->
      Nat.odd (Conv1d.kernel_size (InputEmbedding.conv e)) = true
      \/ (1 <= b /\ 1 <= Conv1d.in_channels (InputEmbedding.conv e))%nat ->
      InputEmbedding.forward e x = None)
  /\ forall x',
       d2 x' <> Conv1d.in_channels (InputEmbedding.conv e) ->
       InputEmbedding.forward e x' = None.
Proof.
  intros Hx Hp. split; [|split; [|split]].
  - intros Hn Hk. now apply InputEmbedding_forward_length.
  - intros Hk _. now apply InputEmbedding_forward_no_kernel.
  - intros Hn H. unfold shape_of in Hx. injection Hx as X0 X1 X2.
    apply InputEmbedding_forward_empty; [congruence|exact Hp|].
    rewrite X0, X2. exact H.
  - intros x'. apply InputEmbedding_forward_mismatch.
Qed.

Lemma X16_input_embedding_length_witness :
  shape_of (zeros 1 16 1)
    = (1, 16,
       Conv1d.in_channels (InputEmbedding.conv (ETSFormer.embed small_model)))%nat
  /\ Conv1d.padding (InputEmbedding.conv (ETSFormer.embed small_model))
     = (Conv1d.kernel_size (InputEmbedding.conv (ETSFormer.embed small_model))
        / 2)%nat
  /\ exists z,
       InputEmbedding.forward (ETSFormer.embed small_model) (zeros 1 16 1)
         = Some z
       /\ shape_of z = (1, 16, 8)%nat.
Proof.
  assert (H1 : shape_of (zeros 1 16 1)
    = (1, 16,
       Conv1d.in_channels
         (InputEmbedding.conv (ETSFormer.embed small_model)))%nat)
    by reflexivity.
  assert (H2 : Conv1d.padding (InputEmbedding.conv (ETSFormer.embed small_model))
     = (Conv1d.kernel_size (InputEmbedding.conv (ETSFormer.embed small_model))
        / 2)%nat) by reflexivity.
  assert (H3 : (1 <= 16)%nat) by lia.
  assert (H4 : (1 <= Conv1d.kernel_size
                      (InputEmbedding.conv (ETSFormer.embed small_model)))%nat)
    by (vm_compute; lia).
  repeat (split; [assumption|]).
  exact (proj1 (X16_input_embedding_length (ETSFormer.embed small_model)
                  (zeros 1 16 1) 1 16 H1 H2) H3 H4).
Defined.

(** X17: the feed-forward block of the last encoder layer has no effect on
    the forecast: under the conditions in which the model returns, the
    model with that block removed returns the same tensor. *)
Theorem X17_last_feed_forward_is_dead
    (time_features model_dim embed_kernel_size K : nat)
    (self : ETSFormer.t) (ls : list ETSFormer.layer) (l : ETSFormer.layer)
    (x : T3) (b n num_steps_forecast : nat) :
  ETSFormer.shaped time_features model_dim embed_kernel_size K self = true ->
  ETSFormer.encoder_layers self = ls ++ [l] ->
  shape_of x = (b, n, time_features) ->
  (2 <= n)%nat -> Nat.even n = true -> (K <= n / 2 + 1)%nat ->
  Nat.odd embed_kernel_size = true ->
  ETSFormer.forward self x num_steps_forecast
  = ETSFormer.forward
      (ETSFormer.mk (ETSFormer.embed self) (ls ++ [without_ff l]))
      x num_steps_forecast.
Proof.
  intros Hs Hl Hx Hn He HK Hk.
  destruct (embed_returns _ _ _ _ _ _ _ _ Hs Hx ltac:(lia) (odd_pos _ Hk))
    as (z & E & Sz).
  rewrite Hk in Sz.
  destruct (shaped_embed _ _ _ _ _ Hs) as (_ & _ & _ & _ & Hls).
  rewrite Hl, forallb_app in Hls. apply andb_prop in Hls.
  destruct Hls as [Hls1 Hls2]. cbn [forallb] in Hls2.
  apply andb_prop in Hls2. destruct Hls2 as [Hsl _].
  unfold ETSFormer.forward. cbn [ETSFormer.embed ETSFormer.encoder_layers].
  rewrite E, Hl. cbn [bind]. rewrite !encoder_app.
  destruct (encoder_shape _ _ _ ls x z b n Hls1 Hx Sz Hn He HK)
    as (x1 & z1 & -> & Sx1 & Sz1).
  cbn [bind ETSFormer.encoder].
  destruct (layer_forward_shape _ _ _ l x1 z1 b n Hsl Sx1 Sz1 Hn He HK)
    as (x2 & z2 & E2 & _).
  destruct (layer_forward_without_ff _ _ _ _ _ E2) as (z2' & E2').
  rewrite E2, E2'. reflexivity.
Qed.

Lemma X17_last_feed_forward_is_dead_witness :
  ETSFormer.shaped 1 8 3 2 small_model = true
  /\ ETSFormer.encoder_layers small_model = [] ++ [small_layer]
  /\ shape_of (zeros 1 16 1) = (1, 16, 1)%nat
  /\ (2 <= 16)%nat /\ Nat.even 16 = true /\ (2 <= 16 / 2 + 1)%nat
  /\ Nat.odd 3 = true
  /\ ETSFormer.forward small_model (zeros 1 16 1) 4
     = ETSFormer.forward
         (ETSFormer.mk (ETSFormer.embed small_model)
            ([] ++ [without_ff small_layer]))
         (zeros 1 16 1) 4.
Proof.
  assert (H1 : ETSFormer.shaped 1 8 3 2 small_model = true) by reflexivity.
  assert (H2 : ETSFormer.encoder_layers small_model = [] ++ [small_layer])
    by reflexivity.
  assert (H3 : shape_of (zeros 1 16 1) = (1, 16, 1)%nat) by reflexivity.
  assert (H4 : (2 <= 16)%nat) by lia.
  assert (H5 : Nat.even 16 = true) by reflexivity.
  assert (H6 : (2 <= 16 / 2 + 1)%nat) by (simpl; lia).
  assert (H7 : Nat.odd 3 = true) by reflexivity.
  repeat (split; [assumption|]).
  exact (X17_last_feed_forward_is_dead 1 8 3 2 small_model [] small_layer
           (zeros 1 16 1) 1 16 4 H1 H2 H3 H4 H5 H6 H7).
Defined.



(** X19: a model built with the shapes of [__init__] raises on the empty
    series, whatever its kernel size and number of layers: the embedding,
    frequency attention or the indexing of the last time step fails. *)
Theorem X19_forward_raises_on_empty_series
    (time_features model_dim embed_kernel_size K : nat)
    (self : ETSFormer.t) (x : T3) (b num_steps_forecast : nat) :
  ETSFormer.shaped time_features model_dim embed_kernel_size K self = true ->
  shape_of x = (b, 0%nat, time_features) ->
  ETSFormer.forward self x num_steps_forecast = None.
Proof.
  intros Hs Hx.
  destruct (shaped_embed _ _ _ _ _ Hs) as (Hin & Hout & Hk & Hp & _).
  unfold shape_of in Hx. injection Hx as X0 X1 X2.
  unfold ETSFormer.forward, InputEmbedding.forward, Conv1d.forward.
  cbn [transpose12 d0 d1 d2]. rewrite X1, Hp, Hk.
  destruct (negb _); [reflexivity|].
  destruct (embed_kernel_size =? 0)%nat; [reflexivity|].
  destruct (Nat.ltb_spec (0 + 2 * (embed_kernel_size / 2)) embed_kernel_size)
    as [|Hge]; [reflexivity|].
  destruct (_ && _ && _); [reflexivity|].
  cbn [bind].
  destruct (ETSFormer.encoder_layers self) as [|l ls].
  - cbn [ETSFormer.encoder bind fst]. unfold LevelStack.forward.
    now rewrite X1.
  - cbn [ETSFormer.encoder]. unfold ETSFormer.layer_forward.
    rewrite (proj2 (fa_forward_none_iff _ _)); [reflexivity|].
    left. cbn [transpose12 Dropout.on d0 d1 d2].
    pose proof (Nat.div_mod_eq embed_kernel_size 2).
    pose proof (Nat.mod_upper_bound embed_kernel_size 2 ltac:(lia)). lia.
Qed.

Lemma X19_forward_raises_on_empty_series_witness :
  ETSFormer.shaped 1 8 3 2 small_model = true
  /\ shape_of (zeros 1 0 1) = (1, 0, 1)%nat
  /\ ETSFormer.forward small_model (zeros 1 0 1) 4 = None.
Proof.
  assert (H1 : ETSFormer.shaped 1 8 3 2 small_model = true) by reflexivity.
  assert (H2 : shape_of (zeros 1 0 1) = (1, 0, 1)%nat) by reflexivity.
  repeat (split; [assumption|]).
  exact (X19_forward_raises_on_empty_series 1 8 3 2 small_model (zeros 1 0 1)
           1 4 H1 H2).
Defined.
